(** * Quantum teleportation simulator: engine and protocol driver

    A shallow embedding of [quantum_teleportation_simulator.py].

    Numbers.  The program computes with NumPy [complex128] arrays.  The
    embedding uses exact arithmetic: a complex number is a pair of real
    numbers, [np.sqrt] is [sqrt], and a division whose divisor is zero (which
    yields NaN in NumPy) is made explicit where the program can reach it.
    Rounding is not modelled.  In [float64] a sum of squares can also
    underflow to zero or overflow to infinity; statements over all entries
    or all states that depend on it carry the range [squares_in_range] as a
    hypothesis, or say that they are in exact arithmetic.

    Arrays.  The program uses two-dimensional arrays (gates, and column
    vectors such as [zero = np.array([[1], [0]])]) and, after a measurement,
    a one-dimensional array ([state.flatten()]).  A [matrix] is a list of
    rows, a [vector] a list of amplitudes, and the global [state] holds an
    [ndarray] that is one or the other.

    Effects.  The three module-level globals [state], [psi], [alice_result]
    form a [session] record that every simulation step takes and returns,
    together with a [report] of what the step showed to the user.  The random
    source of [np.random.choice] is an explicit argument, and so are the
    two text entries of [initialize], already converted by [complex].
    Of [plot_state], what it hands to the bar chart is modelled; the
    widgets are not. *)

From Stdlib Require Import Reals Lra Lia String List Bool Arith.
Import ListNotations.

Open Scope R_scope.

(* ------------------------------------------------------------------ *)
(** * The program *)

(** ** Complex numbers *)

Module Cplx.

Definition C : Type := (R * R)%type.

Definition Re (z : C) : R := fst z.
Definition Im (z : C) : R := snd z.

Definition RtoC (x : R) : C := (x, 0).

Definition C0 : C := RtoC 0.
Definition C1 : C := RtoC 1.

Definition Cadd (z w : C) : C := (Re z + Re w, Im z + Im w).

Definition Cmul (z w : C) : C :=
  (Re z * Re w - Im z * Im w, Re z * Im w + Im z * Re w).

(** A real scalar times a complex number, as in [(1/np.sqrt(2)) * array]. *)
Definition Cscale (r : R) (z : C) : C := (r * Re z, r * Im z).

(** A complex number divided by a real one, as in [state / norm]. *)
Definition Cdiv_real (z : C) (r : R) : C := (Re z / r, Im z / r).

(** [np.abs] of a complex number. *)
Definition Cmod (z : C) : R := sqrt (Re z * Re z + Im z * Im z).

End Cplx.
Export Cplx.

(* ------------------------------------------------------------------ *)
(** ** Arrays *)

Definition vector : Type := list C.
Definition matrix : Type := list (list C).

Inductive ndarray : Type :=
| Arr1 (v : vector)
| Arr2 (m : matrix).

(** What the NumPy operations used by [normalize] need of an array,
    whatever its shape: its elements in row-major order and an
    element-wise map. *)
Class ArrayLike (A : Type) : Type := {
  flatten : A -> list C;
  amap : (C -> C) -> A -> A
}.

Definition mat_map (f : C -> C) (m : matrix) : matrix := map (map f) m.

#[export] Instance vector_ArrayLike : ArrayLike vector := {|
  flatten := fun v => v;
  amap := fun f v => map f v
|}.

#[export] Instance matrix_ArrayLike : ArrayLike matrix := {|
  flatten := fun m => concat m;
  amap := mat_map
|}.

Definition nd_flatten (x : ndarray) : list C :=
  match x with
  | Arr1 v => v
  | Arr2 m => concat m
  end.

Definition nd_map (f : C -> C) (x : ndarray) : ndarray :=
  match x with
  | Arr1 v => Arr1 (map f v)
  | Arr2 m => Arr2 (mat_map f m)
  end.

#[export] Instance ndarray_ArrayLike : ArrayLike ndarray := {|
  flatten := nd_flatten;
  amap := nd_map
|}.

(** Sum of a list of reals ([ndarray.sum], [np.sum]). *)
Definition Rsum (l : list R) : R := fold_right Rplus 0 l.

(** [np.abs(x)**2], element-wise. *)
Definition abs2 (l : list C) : list R := map (fun z => Cmod z ^ 2) l.

(** [np.linalg.norm]: the 2-norm of a 1-D array and the Frobenius norm of a
    2-D one, both the square root of the sum of the squared moduli. *)
Definition np_linalg_norm {A} `{ArrayLike A} (x : A) : R :=
  sqrt (Rsum (abs2 (flatten x))).

(* ------------------------------------------------------------------ *)
(** ** Quantum functions *)

(** [normalize(state)]: [state / norm if norm != 0 else state].  The norm
    is the exact one: it is zero for the all-zero array only, where the
    computed [float64] norm is also zero when every square underflows. *)
Definition normalize {A} `{ArrayLike A} (state : A) : A :=
  let norm := np_linalg_norm state in
  if Req_dec_T norm 0 then state else amap (fun z => Cdiv_real z norm) state.

(** [np.kron] of two rows: every element of the first times the whole
    second. *)
Definition row_kron (r s : list C) : list C :=
  flat_map (fun a => map (Cmul a) s) r.

(** [np.kron] of two 2-D arrays: block [(i, j)] of the result is
    [a[i][j] * b]. *)
Definition np_kron (a b : matrix) : matrix :=
  flat_map (fun ra => map (row_kron ra) b) a.

(** [kron], variadic: [matrices[0]], then [np.kron] with each further
    argument in turn.  The first argument is separate because the program
    always passes at least one (with none, [matrices[0]] raises). *)
Definition kron (m0 : matrix) (ms : list matrix) : matrix :=
  fold_left np_kron ms m0.

(** Basic states and gates. *)
Definition zero : matrix := [[C1]; [C0]].
Definition one : matrix := [[C0]; [C1]].
Definition X : matrix := [[C0; C1]; [C1; C0]].
Definition Z : matrix := [[C1; C0]; [C0; RtoC (-1)]].
Definition H : matrix :=
  mat_map (Cscale (1 / sqrt 2)) [[C1; C1]; [C1; RtoC (-1)]].
Definition I : matrix := [[C1; C0]; [C0; C1]].
Definition CNOT : matrix :=
  [[C1; C0; C0; C0];
   [C0; C1; C0; C0];
   [C0; C0; C0; C1];
   [C0; C0; C1; C0]].

(* ------------------------------------------------------------------ *)
(** ** Exceptions *)

Inductive exn : Type :=
| ValueError
| IndexError.

Inductive res (A : Type) : Type :=
| Ok (a : A)
| Raise (e : exn).

Arguments Ok {A} a.
Arguments Raise {A} e.

Definition bind {A B} (r : res A) (k : A -> res B) : res B :=
  match r with
  | Ok a => k a
  | Raise e => Raise e
  end.

Notation "x <- r ;; k" := (bind r (fun x => k))
  (at level 61, r at next level, right associativity).

(* ------------------------------------------------------------------ *)
(** ** Matrix product, [@] *)

Definition dot (r c : list C) : C :=
  fold_right Cadd C0 (map (fun p => Cmul (fst p) (snd p)) (combine r c)).

Definition ncols (m : matrix) : nat :=
  match m with
  | [] => 0%nat
  | r :: _ => length r
  end.

Definition column (j : nat) (m : matrix) : list C :=
  map (fun row => nth j row C0) m.

Definition transpose (m : matrix) : matrix :=
  map (fun j => column j m) (seq 0 (ncols m)).

(** Every row of [a] has [n] entries. *)
Definition conformable (a : matrix) (n : nat) : bool :=
  forallb (fun r => (length r =? n)%nat) a.

(** 2-D [@] 1-D.  NumPy raises [ValueError] on a shape mismatch. *)
Definition mat_vec (a : matrix) (v : vector) : res vector :=
  if conformable a (length v) then Ok (map (fun r => dot r v) a)
  else Raise ValueError.

(** 2-D [@] 2-D. *)
Definition mat_mul (a b : matrix) : res matrix :=
  if conformable a (length b)
  then Ok (map (fun r => map (dot r) (transpose b)) a)
  else Raise ValueError.

(** [gate @ state]: the left operand is a gate in every use; the state is a
    column (before the measurement) or a flat array (after it). *)
Definition matmul (a : matrix) (x : ndarray) : res ndarray :=
  match x with
  | Arr1 v => v' <- mat_vec a v ;; Ok (Arr1 v')
  | Arr2 m => m' <- mat_mul a m ;; Ok (Arr2 m')
  end.

(** Element-wise sum of two arrays of the same shape. *)
Definition mat_add (a b : matrix) : matrix :=
  map (fun rs => map (fun p => Cadd (fst p) (snd p)) (combine (fst rs) (snd rs)))
      (combine a b).

(* ------------------------------------------------------------------ *)
(** ** Sampling: [np.random.choice(n, p=p)]

    NumPy rejects a [p] with a negative entry or whose sum is not 1 (NaN
    entries are modelled by the caller), then draws one uniform sample [u]
    in [[0, 1)] and returns [cdf.searchsorted(u, side='right')] for the
    normalised cumulative sum [cdf] of [p].  The uniform sample is the
    injected random source. *)

Fixpoint cumsum_from (acc : R) (p : list R) : list R :=
  match p with
  | [] => []
  | x :: p' => (acc + x) :: cumsum_from (acc + x) p'
  end.

Definition cumsum (p : list R) : list R := cumsum_from 0 p.

(** Insertion point to the right of the entries that are [<= u]. *)
Fixpoint searchsorted_right (cdf : list R) (u : R) : nat :=
  match cdf with
  | [] => 0%nat
  | c :: cdf' => if Rle_dec c u then S (searchsorted_right cdf' u) else 0%nat
  end.

Definition np_random_choice (u : R) (p : list R) : res nat :=
  if existsb (fun x => if Rlt_dec x 0 then true else false) p
  then Raise ValueError
  else if Req_dec_T (Rsum p) 1
  then let cdf := cumsum p in
       let cdf := map (fun c => c / last cdf 0) cdf in
       Ok (searchsorted_right cdf u)
  else Raise ValueError.

(* ------------------------------------------------------------------ *)
(** ** Measurement of the first two qubits *)

Definition outcomes : list (nat * nat) :=
  [(0, 0); (0, 1); (1, 0); (1, 1)]%nat.

(** [(i >> k) & 1]. *)
Definition bit (i k : nat) : nat := Nat.land (Nat.shiftr i k) 1.

(** [[i for i in range(8) if [(i>>2)&1, (i>>1)&1] == [a, b]]]. *)
Definition mask (ab : nat * nat) : list nat :=
  filter (fun i => (bit i 2 =? fst ab)%nat && (bit i 1 =? snd ab)%nat)
         (seq 0 8).

(** [arr[mask]]: fancy indexing; an index past the end raises. *)
Fixpoint take {A} (arr : list A) (idx : list nat) : res (list A) :=
  match idx with
  | [] => Ok []
  | i :: idx' =>
      match nth_error arr i with
      | None => Raise IndexError
      | Some x => xs <- take arr idx' ;; Ok (x :: xs)
      end
  end.

Fixpoint set_nth {A} (arr : list A) (i : nat) (x : A) : list A :=
  match arr, i with
  | [], _ => []
  | _ :: arr', O => x :: arr'
  | y :: arr', S i' => y :: set_nth arr' i' x
  end.

(** [arr[mask] = vals]: fancy assignment of one value per index. *)
Fixpoint put {A} (arr : list A) (idx : list nat) (vals : list A)
  : res (list A) :=
  match idx, vals with
  | i :: idx', x :: vals' =>
      if (i <? length arr)%nat then put (set_nth arr i x) idx' vals'
      else Raise IndexError
  | _, _ => Ok arr
  end.

(** The loop over [outcomes]: [outcome_probs.append(probs[mask].sum())]. *)
Fixpoint group_probs (probs : list R) (os : list (nat * nat))
  : res (list R) :=
  match os with
  | [] => Ok []
  | ab :: os' =>
      sel <- take probs (mask ab) ;;
      rest <- group_probs probs os' ;;
      Ok (Rsum sel :: rest)
  end.

(** [np.array(outcome_probs) / np.sum(outcome_probs)] followed by
    [np.random.choice(4, p=outcome_probs)].  When the sum is zero the
    quotient holds NaN and [np.random.choice] raises [ValueError].  The sum
    is the exact one; the computed [float64] sum is also zero when every
    squared modulus underflows. *)
Definition sample_outcome (u : R) (raw : list R) : res nat :=
  let total := Rsum raw in
  if Req_dec_T total 0 then Raise ValueError
  else np_random_choice u (map (fun x => x / total) raw).

Definition measure_two_qubits (u : R) (state : ndarray)
  : res ((nat * nat) * vector) :=
  let state := flatten state in
  let probs := abs2 state in
  raw <- group_probs probs outcomes ;;
  idx <- sample_outcome u raw ;;
  match nth_error outcomes idx with
  | None => Raise IndexError
  | Some outcome =>
      let mask := mask outcome in
      let new_state := map (fun _ => C0) state in
      vals <- take state mask ;;
      new_state <- put new_state mask vals ;;
      let new_state := normalize new_state in
      Ok (outcome, new_state)
  end.

(* ------------------------------------------------------------------ *)
(** ** Simulation steps

    The globals.  [None] is Python's [None]. *)

Record session : Type := {
  state : option ndarray;
  psi : option matrix;
  alice_result : option (nat * nat)
}.

(** The program at start: [state = None], [psi = None],
    [alice_result = None]. *)
Definition start : session :=
  {| state := None; psi := None; alice_result := None |}.

(** What a step shows.  [Notice] is a message box followed by [return];
    [Done] is a step that ran to its end (plot and text output);
    [BobQubit] is [bob_correction] run to its end, with the qubit it
    printed; [Uncaught] is an exception that left the step. *)
Inductive report : Type :=
| Notice (title message : string)
| Done
| BobQubit (bob_qubit : matrix)
| Uncaught (e : exn).

Definition set_state (s : session) (st : ndarray) : session :=
  {| state := Some st; psi := psi s; alice_result := alice_result s |}.

(** [initialize()].  The arguments are [complex(alpha_entry.get())] and
    [complex(beta_entry.get())], [None] when the conversion raises
    [ValueError]. *)
Definition initialize (alpha_entry beta_entry : option C) (s : session)
  : session * report :=
  match alpha_entry, beta_entry with
  | Some alpha, Some beta =>
      let psi := normalize (mat_add (mat_map (Cmul alpha) zero)
                                    (mat_map (Cmul beta) one)) in
      let bell := normalize (mat_add (kron zero [zero]) (kron one [one])) in
      let state := kron psi [bell] in
      ({| state := Some (Arr2 state);
          psi := Some psi;
          alice_result := alice_result s |}, Done)
  | _, _ =>
      (s, Notice "Invalid Input"
                 "Enter valid numeric or complex values for α and β.")
  end.

(** [alice_ops()]. *)
Definition alice_ops (s : session) : session * report :=
  match state s with
  | None => (s, Notice "Info" "Please initialize first.")
  | Some st =>
      let U_cnot := kron CNOT [I] in
      match matmul U_cnot st with
      | Raise e => (s, Uncaught e)
      | Ok st1 =>
          let U_h := kron H [I; I] in
          match matmul U_h st1 with
          | Raise e => (set_state s st1, Uncaught e)
          | Ok st2 => (set_state s st2, Done)
          end
      end
  end.

(** [measure()], with the uniform sample [u] that [np.random.choice]
    draws. *)
Definition measure (u : R) (s : session) : session * report :=
  match state s with
  | None =>
      (s, Notice "Info" "Initialize and run Alice's operations first.")
  | Some st =>
      match measure_two_qubits u st with
      | Raise e => (s, Uncaught e)
      | Ok (outcome, new_state) =>
          ({| state := Some (Arr1 new_state);
              psi := psi s;
              alice_result := Some outcome |}, Done)
      end
  end.

(** The [if]/[elif] chain of [bob_correction]. *)
Definition select_correction (a b : nat) : res matrix :=
  if ((a =? 0) && (b =? 0))%nat then Ok I
  else if ((a =? 0) && (b =? 1))%nat then Ok X
  else if ((a =? 1) && (b =? 0))%nat then Ok Z
  else mat_mul Z X.

(** [state[-2:]]: the last two entries of a flat array, the last two rows
    of a 2-D one. *)
Definition last_two (x : ndarray) : ndarray :=
  match x with
  | Arr1 v => Arr1 (skipn (length v - 2) v)
  | Arr2 m => Arr2 (skipn (length m - 2) m)
  end.

(** [.reshape(2, 1)]: the array must hold exactly two elements. *)
Definition reshape_2_1 (x : ndarray) : res matrix :=
  match flatten x with
  | [z0; z1] => Ok [[z0]; [z1]]
  | _ => Raise ValueError
  end.

(** [bob_correction()]. *)
Definition bob_correction (s : session) : session * report :=
  match state s, alice_result s with
  | Some st, Some (a, b) =>
      match (correction <- select_correction a b ;;
             matmul (kron I [I; correction]) st) with
      | Raise e => (s, Uncaught e)
      | Ok st' =>
          let s' := set_state s st' in
          match reshape_2_1 (last_two st') with
          | Raise e => (s', Uncaught e)
          | Ok col => (s', BobQubit (normalize col))
          end
      end
  | _, _ => (s, Notice "Info" "Run previous steps first.")
  end.

(** ** Plotting

    [plot_state(state, title)], by what it hands to [ax.bar]: one label
    and one height per amplitude, and the title.  [int(np.log2(0))] raises
    [OverflowError]; for the array lengths a machine can hold, the integer
    part of [np.log2] is [Nat.log2]. *)

Inductive drawn : Type :=
| Drawn (labels : list string) (heights : list R) (title : string)
| OverflowError.

(** The binary digits of a positive number, most significant first. *)
Fixpoint pos_bin (p : positive) : string :=
  match p with
  | xH => "1"
  | xO q => pos_bin q ++ "0"
  | xI q => pos_bin q ++ "1"
  end%string.

(** [format(i, 'b')]. *)
Definition bin (i : nat) : string :=
  match i with
  | O => "0"%string
  | S _ => pos_bin (Pos.of_nat i)
  end.

Fixpoint zeros (k : nat) : string :=
  match k with
  | O => EmptyString
  | S k' => ("0" ++ zeros k')%string
  end.

(** [f"{i:0{width}b}"]: the binary digits of [i], padded with zeros on the
    left up to [width] characters. *)
Definition format_0b (width i : nat) : string :=
  (zeros (width - String.length (bin i)) ++ bin i)%string.

Definition plot_state (state : ndarray) (title : string) : drawn :=
  let state := flatten state in
  let probs := abs2 state in
  match length probs with
  | O => OverflowError
  | S _ =>
      let num_qubits := Nat.log2 (length probs) in
      let labels :=
        map (fun i => ("|" ++ format_0b num_qubits i ++ ">")%string)
            (seq 0 (length probs)) in
      Drawn labels probs title
  end.

(* ------------------------------------------------------------------ *)
(** * Notions used in the statements *)

(** ** Arrays and norms *)

(** The element-wise map and the row-major order of an array agree. *)
Class ArrayLaws (A : Type) `{ArrayLike A} : Prop := {
  flatten_amap : forall (f : C -> C) (a : A),
      flatten (amap f a) = map f (flatten a);
  amap_id : forall (f : C -> C) (a : A),
      (forall z, In z (flatten a) -> f z = z) -> amap f a = a
}.

(** The squared norm: the sum of the squared moduli. *)
Definition norm2 {A} `{ArrayLike A} (x : A) : R := Rsum (abs2 (flatten x)).

(** [row_kron] and [np_kron] are the same scheme, on elements and on rows. *)
Definition outer {T} (op : T -> T -> T) (l1 l2 : list T) : list T :=
  flat_map (fun a => map (op a) l2) l1.

(** The column array of the amplitudes [v], as [zero] and [one] are. *)
Definition col (v : vector) : matrix := map (fun z => [z]) v.

(** The shapes that the composite state takes: eight amplitudes, flat or
    as a column. *)
Definition shape8 (st : ndarray) : bool :=
  match st with
  | Arr1 v => (length v =? 8)%nat
  | Arr2 m => (length m =? 8)%nat && forallb (fun r => (length r =? 1)%nat) m
  end.

(** The array of the shape of [st] that holds the amplitudes [v]. *)
Definition like (st : ndarray) (v : vector) : ndarray :=
  match st with
  | Arr1 _ => Arr1 v
  | Arr2 _ => Arr2 (col v)
  end.

(** Eight amplitudes, indexed by the three qubits, qubit 0 first. *)
Definition vec8 (z0 z1 z2 z3 z4 z5 z6 z7 : C) : vector :=
  [z0; z1; z2; z3; z4; z5; z6; z7].

(** The amplitudes of the state, if there is one. *)
Definition option_amps (o : option ndarray) : vector :=
  match o with
  | Some st => flatten st
  | None => []
  end.

Definition Cneg (z : C) : C := Cscale (-1) z.
Definition Cminus (z w : C) : C := Cadd z (Cneg w).

(** ** Gates on amplitudes *)

(** A gate times a flat array of amplitudes. *)
Definition apply_gate (U : matrix) (v : vector) : vector :=
  map (fun r => dot r v) U.

(** A one-qubit gate [g] on the amplitude pair [(a, b)]. *)
Definition act (g : matrix) (a b : C) : list C :=
  map (fun r => dot r [a; b]) g.

(** The two operators of [alice_ops]. *)
Definition U_cnot : matrix := kron CNOT [I].
Definition U_h : matrix := kron H [I; I].

(** The amplitudes after Alice's two gates. *)
Definition alice_amps (v : vector) : vector :=
  apply_gate U_h (apply_gate U_cnot v).

(** The product [Z @ X], entry by entry. *)
Definition ZX : matrix :=
  [[Cadd (Cmul C1 C0) (Cadd (Cmul C0 C1) C0);
    Cadd (Cmul C1 C1) (Cadd (Cmul C0 C0) C0)];
   [Cadd (Cmul C0 C0) (Cadd (Cmul (RtoC (-1)) C1) C0);
    Cadd (Cmul C0 C1) (Cadd (Cmul (RtoC (-1)) C0) C0)]].

(** The correction table of the protocol. *)
Definition correction_table (a b : nat) : matrix :=
  match a, b with
  | 0%nat, 0%nat => I
  | 0%nat, 1%nat => X
  | 1%nat, 0%nat => Z
  | _, _ => ZX
  end.

Definition is_2x2 (g : matrix) : Prop :=
  exists g00 g01 g10 g11, g = [[g00; g01]; [g10; g11]].

(** [kron(I, I, g)] on eight amplitudes: [g] on each pair of amplitudes
    that differ in the third qubit only. *)
Definition third_qubit (g : matrix) (v : vector) : vector :=
  match v with
  | [z0; z1; z2; z3; z4; z5; z6; z7] =>
      act g z0 z1 ++ act g z2 z3 ++ act g z4 z5 ++ act g z6 z7
  | _ => []
  end.

(** ** The prepared and the entangled state *)

(** [|00> + |11>], before it is normalised. *)
Definition bell_amps : vector := [C1; C0; C0; C1].

(** The amplitudes that [initialize] stores for [psi] and for the
    composite state. *)
Definition psi_amps (alpha beta : C) : vector := normalize [alpha; beta].

Definition initial_amps (alpha beta : C) : vector :=
  row_kron (psi_amps alpha beta) (normalize bell_amps).

(** The composite state after Alice's gates, for the qubit [(a, b)]. *)
Definition entangled_amps (a b : C) : vector :=
  map (Cscale (1 / 2)) (vec8 a b b a a (Cneg b) (Cneg b) a).

(** ** The measurement, on eight amplitudes *)

(** The four summed probabilities of a state of eight amplitudes. *)
Definition group_probs8 (v : vector) : list R :=
  match v with
  | [z0; z1; z2; z3; z4; z5; z6; z7] =>
      [Rsum (abs2 [z0; z1]); Rsum (abs2 [z2; z3]);
       Rsum (abs2 [z4; z5]); Rsum (abs2 [z6; z7])]
  | _ => []
  end.

(** The state with the amplitudes outside group [idx] zeroed. *)
Definition collapse8 (idx : nat) (v : vector) : vector :=
  match v with
  | [z0; z1; z2; z3; z4; z5; z6; z7] =>
      match idx with
      | 0%nat => [z0; z1; C0; C0; C0; C0; C0; C0]
      | 1%nat => [C0; C0; z2; z3; C0; C0; C0; C0]
      | 2%nat => [C0; C0; C0; C0; z4; z5; C0; C0]
      | _ => [C0; C0; C0; C0; C0; C0; z6; z7]
      end
  | _ => []
  end.

(** The algorithm in the words of its description: qubit 0 is the most
    significant bit of the index of a basis state, qubit 1 the next one. *)
Definition measured_bits (i : nat) : nat * nat := (bit i 2, bit i 1).

Definition bits_match (ab : nat * nat) (i : nat) : bool :=
  ((fst (measured_bits i) =? fst ab) && (snd (measured_bits i) =? snd ab))%nat.

(** The summed probability of the basis states whose measured bits are
    [ab]. *)
Definition group_probability (v : vector) (ab : nat * nat) : R :=
  Rsum (map (fun i => Cmod (nth i v C0) ^ 2)
            (filter (bits_match ab) (seq 0 8))).


(** ** Runs of the protocol driver *)

(** One press of a button, with what the step reads from outside: the two
    entries for [initialize], the uniform sample for [measure]. *)
Inductive step : Type :=
| Initialize (alpha_entry beta_entry : option C)
| AliceOps
| Measure (u : R)
| BobCorrection.

Definition run_step (c : step) (s : session) : session * report :=
  match c with
  | Initialize alpha_entry beta_entry => initialize alpha_entry beta_entry s
  | AliceOps => alice_ops s
  | Measure u => measure u s
  | BobCorrection => bob_correction s
  end.

(** The session after the steps [cs], one after the other. *)
Fixpoint run (cs : list step) (s : session) : session :=
  match cs with
  | [] => s
  | c :: cs' => run cs' (fst (run_step c s))
  end.

(** A step whose amplitudes, when both entries parse, are not both zero,
    and whose uniform sample lies in [[0, 1)]. *)
Definition proper_step (c : step) : Prop :=
  match c with
  | Initialize (Some alpha) (Some beta) => alpha <> C0 \/ beta <> C0
  | Measure u => 0 <= u < 1
  | _ => True
  end.

(** The sums of squared moduli that [float64] computes without
    underflow to zero and without overflow.  With a sum outside this range
    the program can take the branches of a zero or of a non-finite norm. *)
Definition squares_in_range (x : R) : Prop := 1e-300 <= x <= 1e300.


(** Eight amplitudes of norm 1. *)
Definition unit_state (st : ndarray) : Prop :=
  shape8 st = true /\ norm2 st = 1.

(** The invariant of the runs: a state, when there is one, is a unit
    state, and so is psi. *)
Definition session_ok (s : session) : Prop :=
  (forall st, state s = Some st -> unit_state st)
  /\ (forall p, psi s = Some p -> norm2 p = 1).

(** The whole protocol once: initialize, Alice's gates, the measurement
    with the uniform sample [u], Bob's correction. *)
Definition teleport (alpha beta : C) (u : R) : session * report :=
  run_step BobCorrection
    (run [Initialize (Some alpha) (Some beta); AliceOps; Measure u] start).

(** Bob's qubit as [bob_correction] extracts it, by the measured index:
    the teleported qubit for [(1, 1)], the zero column otherwise. *)
Definition extracted_qubit (idx : nat) (a b : C) : matrix :=
  match idx with
  | 3%nat => col [a; b]
  | _ => col [C0; C0]
  end.

(** Equality of two single-qubit states up to a global phase. *)
Definition same_up_to_phase (q p : matrix) : Prop :=
  exists c, Cmod c = 1 /\ q = mat_map (Cmul c) p.

(** ** Shapes, labels and Bob's qubit *)

(** A two-dimensional array of [r] rows and [c] columns. *)
Definition has_shape (m : matrix) (r c : nat) : Prop :=
  length m = r /\ Forall (fun row => length row = c) m.

(** The element [m[i][j]]. *)
Definition entry (m : matrix) (i j : nat) : C := nth j (nth i m []) C0.

(** The number that the binary digits of a string write; other characters
    (the "|" and ">" of a label) are passed over. *)
Fixpoint digits_value (acc : nat) (s : string) : nat :=
  match s with
  | EmptyString => acc
  | String c s' =>
      if String.eqb (String c EmptyString) "1" then digits_value (2 * acc + 1) s'
      else if String.eqb (String c EmptyString) "0" then digits_value (2 * acc) s'
      else digits_value acc s'
  end.

Definition label_index (label : string) : nat := digits_value 0 label.

(** The label that [plot_state] gives the basis state [i] of [num_qubits]
    qubits. *)
Definition basis_label (num_qubits i : nat) : string :=
  ("|" ++ format_0b num_qubits i ++ ">")%string.

(** The eight amplitudes of the basis state [idx] of Alice's two qubits
    together with the qubit [(a, b)] of Bob. *)
Definition bob_holds (idx : nat) (a b : C) : vector :=
  collapse8 idx (vec8 a b a b a b a b).

(** What every run keeps of the shapes: a state holds eight amplitudes
    and a recorded result is one of the four outcomes. *)
Definition session_shaped (s : session) : Prop :=
  (forall st, state s = Some st -> shape8 st = true)
  /\ (forall o, alice_result s = Some o -> In o outcomes).

(* ------------------------------------------------------------------ *)
(** * Properties *)

(** ** Arrays: the element-wise map and the row-major order agree *)

Lemma concat_mat_map (f : C -> C) (m : matrix) :
  concat (mat_map f m) = map f (concat m).
Proof.
  unfold mat_map. induction m as [|r m IH]; simpl.
  - reflexivity.
  - now rewrite map_app, IH.
Qed.

Lemma map_fix (f : C -> C) (l : list C) :
  (forall z, In z l -> f z = z) -> map f l = l.
Proof.
  induction l as [|x l IH]; simpl; intros Hf.
  - reflexivity.
  - rewrite Hf by now left. f_equal. apply IH. intros z Hz. apply Hf. now right.
Qed.

Lemma mat_map_fix (f : C -> C) (m : matrix) :
  (forall z, In z (concat m) -> f z = z) -> mat_map f m = m.
Proof.
  unfold mat_map. induction m as [|r m IH]; simpl; intros Hf.
  - reflexivity.
  - f_equal.
    + apply map_fix. intros z Hz. apply Hf, in_or_app. now left.
    + apply IH. intros z Hz. apply Hf, in_or_app. now right.
Qed.

Lemma nd_flatten_map (f : C -> C) (x : ndarray) :
  nd_flatten (nd_map f x) = map f (nd_flatten x).
Proof. destruct x; simpl; [reflexivity | apply concat_mat_map]. Qed.

Lemma nd_map_fix (f : C -> C) (x : ndarray) :
  (forall z, In z (nd_flatten x) -> f z = z) -> nd_map f x = x.
Proof.
  destruct x; simpl; intros Hf; f_equal;
    [now apply map_fix | now apply mat_map_fix].
Qed.

#[export] Instance vector_ArrayLaws : ArrayLaws vector.
Proof. split; [reflexivity | exact map_fix]. Qed.

#[export] Instance matrix_ArrayLaws : ArrayLaws matrix.
Proof. split; [exact concat_mat_map | exact mat_map_fix]. Qed.

#[export] Instance ndarray_ArrayLaws : ArrayLaws ndarray.
Proof. split; [exact nd_flatten_map | exact nd_map_fix]. Qed.

(** ** Complex arithmetic *)

Lemma C_eq (z w : C) : Re z = Re w -> Im z = Im w -> z = w.
Proof. destruct z, w; simpl; intros -> ->; reflexivity. Qed.

Lemma Cmul_assoc (x y z : C) : Cmul (Cmul x y) z = Cmul x (Cmul y z).
Proof. apply C_eq; unfold Cmul, Re, Im; simpl; ring. Qed.

Lemma Cmod_sqr (z : C) : Cmod z ^ 2 = Re z * Re z + Im z * Im z.
Proof. unfold Cmod. apply pow2_sqrt. nra. Qed.

Lemma Cmod_sqr_nonneg (z : C) : 0 <= Cmod z ^ 2.
Proof. rewrite Cmod_sqr. nra. Qed.

Lemma Cmod_sqr_zero (z : C) : Cmod z ^ 2 = 0 -> z = C0.
Proof.
  rewrite Cmod_sqr. intros Hz. apply C_eq; unfold C0, RtoC; simpl; nra.
Qed.

Lemma Cmod_sqr_div (z : C) (n : R) :
  n <> 0 -> Cmod (Cdiv_real z n) ^ 2 = Cmod z ^ 2 / (n * n).
Proof.
  intros Hn. rewrite !Cmod_sqr. unfold Cdiv_real, Re, Im; simpl. now field.
Qed.

Lemma Cmod_sqr_mul (z w : C) : Cmod (Cmul z w) ^ 2 = Cmod z ^ 2 * Cmod w ^ 2.
Proof. rewrite !Cmod_sqr. unfold Cmul, Re, Im; simpl. ring. Qed.

Lemma Cdiv_real_1 (z : C) : Cdiv_real z 1 = z.
Proof. apply C_eq; unfold Cdiv_real, Re, Im; simpl; field. Qed.

(** ** Sums of squared moduli *)

Lemma Rsum_app (l1 l2 : list R) : Rsum (l1 ++ l2) = Rsum l1 + Rsum l2.
Proof.
  unfold Rsum. induction l1 as [|x l1 IH]; simpl; [ring | rewrite IH; ring].
Qed.

Lemma abs2_app (l1 l2 : list C) : abs2 (l1 ++ l2) = abs2 l1 ++ abs2 l2.
Proof. apply map_app. Qed.

Lemma Rsum_abs2_nonneg (l : list C) : 0 <= Rsum (abs2 l).
Proof.
  induction l as [|z l IH]; simpl; [lra|].
  pose proof (Cmod_sqr_nonneg z). simpl in *. lra.
Qed.

Lemma Rsum_abs2_zero (l : list C) :
  Rsum (abs2 l) = 0 -> Forall (fun z => z = C0) l.
Proof.
  induction l as [|z l IH]; intros Hs; constructor.
  - apply Cmod_sqr_zero.
    pose proof (Cmod_sqr_nonneg z). pose proof (Rsum_abs2_nonneg l).
    simpl in *. lra.
  - apply IH.
    pose proof (Cmod_sqr_nonneg z). pose proof (Rsum_abs2_nonneg l).
    simpl in *. lra.
Qed.

Lemma Rsum_abs2_div (l : list C) (n : R) :
  n <> 0 ->
  Rsum (abs2 (map (fun z => Cdiv_real z n) l)) = Rsum (abs2 l) / (n * n).
Proof.
  intros Hn. induction l as [|z l IH].
  - simpl. now field.
  - change (Cmod (Cdiv_real z n) ^ 2
            + Rsum (abs2 (map (fun z => Cdiv_real z n) l))
            = (Cmod z ^ 2 + Rsum (abs2 l)) / (n * n)).
    rewrite IH, Cmod_sqr_div by assumption. now field.
Qed.

(** ** [normalize] *)

Section Normalize.

Context {A : Type} `{ArrayLaws A}.

Lemma norm_sqrt (x : A) : np_linalg_norm x = sqrt (norm2 x).
Proof. reflexivity. Qed.

Lemma norm_zero_iff (x : A) : np_linalg_norm x = 0 <-> norm2 x = 0.
Proof.
  rewrite norm_sqrt. split.
  - apply sqrt_eq_0, Rsum_abs2_nonneg.
  - intros ->. apply sqrt_0.
Qed.

Lemma norm_one_iff (x : A) : np_linalg_norm x = 1 <-> norm2 x = 1.
Proof.
  rewrite norm_sqrt. split.
  - intros Hx. rewrite <- (sqrt_sqrt (norm2 x)) by apply Rsum_abs2_nonneg.
    rewrite Hx. ring.
  - intros ->. apply sqrt_1.
Qed.

Lemma normalize_zero (x : A) : norm2 x = 0 -> normalize x = x.
Proof.
  intros Hx. unfold normalize.
  destruct (Req_dec_T (np_linalg_norm x) 0) as [_|Hn]; [reflexivity|].
  now apply norm_zero_iff in Hx.
Qed.

Lemma normalize_nonzero (x : A) :
  norm2 x <> 0 ->
  normalize x = amap (fun z => Cdiv_real z (np_linalg_norm x)) x.
Proof.
  intros Hx. unfold normalize.
  destruct (Req_dec_T (np_linalg_norm x) 0) as [Hn|_]; [|reflexivity].
  now apply norm_zero_iff in Hn.
Qed.

Lemma normalize_unit (x : A) : norm2 x = 1 -> normalize x = x.
Proof.
  intros Hx. rewrite normalize_nonzero by lra.
  apply amap_id. intros z _.
  replace (np_linalg_norm x) with 1 by (symmetry; now apply norm_one_iff).
  apply Cdiv_real_1.
Qed.

Lemma norm2_normalize (x : A) : norm2 x <> 0 -> norm2 (normalize x) = 1.
Proof.
  intros Hx. rewrite normalize_nonzero by assumption.
  unfold norm2 at 1. rewrite flatten_amap, Rsum_abs2_div.
  - rewrite norm_sqrt, sqrt_sqrt by apply Rsum_abs2_nonneg.
    unfold norm2. now field.
  - intros Hn. now apply norm_zero_iff in Hn.
Qed.

Lemma normalize_idempotent (x : A) : normalize (normalize x) = normalize x.
Proof.
  destruct (Req_dec_T (norm2 x) 0) as [Hx|Hx].
  - now rewrite !(normalize_zero x Hx).
  - apply normalize_unit. now apply norm2_normalize.
Qed.

Lemma normalize_zero_or_unit (x : A) :
  Forall (fun z => z = C0) (flatten (normalize x))
  \/ np_linalg_norm (normalize x) = 1.
Proof.
  destruct (Req_dec_T (norm2 x) 0) as [Hx|Hx].
  - left. rewrite normalize_zero by assumption. now apply Rsum_abs2_zero.
  - right. apply norm_one_iff. now apply norm2_normalize.
Qed.

End Normalize.

(** C10.  [normalize] is idempotent on every array, flat or two-dimensional
    and the all-zero one included, and its result is either all zeros or
    has Euclidean norm exactly 1. *)
Theorem normalize_idempotent_unit (v : ndarray) :
  normalize (normalize v) = normalize v
  /\ (Forall (fun z => z = C0) (flatten (normalize v))
      \/ np_linalg_norm (normalize v) = 1).
Proof.
  split.
  - apply normalize_idempotent.
  - apply normalize_zero_or_unit.
Qed.

(** ** [kron] *)

Section Outer.

Context {T : Type} (op : T -> T -> T).
Hypothesis op_assoc : forall x y z, op (op x y) z = op x (op y z).

Lemma outer_app (l1 l1' l2 : list T) :
  outer op (l1 ++ l1') l2 = outer op l1 l2 ++ outer op l1' l2.
Proof. apply flat_map_app. Qed.

Lemma outer_map (a : T) (l1 l2 : list T) :
  outer op (map (op a) l1) l2 = map (op a) (outer op l1 l2).
Proof.
  induction l1 as [|b l1 IH]; simpl; [reflexivity|].
  rewrite map_app, <- IH. f_equal.
  rewrite map_map. apply map_ext. intros c. apply op_assoc.
Qed.

Lemma outer_assoc (l1 l2 l3 : list T) :
  outer op (outer op l1 l2) l3 = outer op l1 (outer op l2 l3).
Proof.
  induction l1 as [|a l1 IH]; simpl; [reflexivity|].
  rewrite outer_app, IH. f_equal. apply outer_map.
Qed.

End Outer.

Lemma row_kron_assoc (r s t : list C) :
  row_kron (row_kron r s) t = row_kron r (row_kron s t).
Proof. exact (outer_assoc Cmul Cmul_assoc r s t). Qed.

Lemma np_kron_assoc (a b c : matrix) :
  np_kron (np_kron a b) c = np_kron a (np_kron b c).
Proof. exact (outer_assoc row_kron row_kron_assoc a b c). Qed.

Lemma length_row_kron (v w : list C) :
  length (row_kron v w) = (length v * length w)%nat.
Proof.
  unfold row_kron. induction v as [|a v IH]; cbn [flat_map]; [reflexivity|].
  rewrite length_app, length_map, IH. reflexivity.
Qed.

Lemma length_np_kron (a b : matrix) :
  length (np_kron a b) = (length a * length b)%nat.
Proof.
  unfold np_kron. induction a as [|ra a IH]; cbn [flat_map]; [reflexivity|].
  rewrite length_app, length_map, IH. reflexivity.
Qed.

Lemma nth_flat_map_uniform {A B} (f : A -> list B) (l : list A) (n i k : nat)
      (d : B) (d0 : A) :
  (forall x, In x l -> length (f x) = n) ->
  (i < length l)%nat -> (k < n)%nat ->
  nth (i * n + k) (flat_map f l) d = nth k (f (nth i l d0)) d.
Proof.
  revert i. induction l as [|x l IH]; intros i Hlen Hi Hk; cbn [length] in Hi.
  - lia.
  - cbn [flat_map]. destruct i as [|i].
    + cbn [nth Nat.mul Nat.add]. rewrite app_nth1; [reflexivity|].
      rewrite Hlen by now left. exact Hk.
    + rewrite app_nth2 by (rewrite Hlen by (now left); cbn; lia).
      rewrite Hlen by now left.
      replace (S i * n + k - n)%nat with (i * n + k)%nat by (cbn; lia).
      cbn [nth]. apply IH; [|lia|exact Hk].
      intros y Hy. apply Hlen. now right.
Qed.

Lemma np_kron_has_shape (a b : matrix) (r c r' c' : nat) :
  has_shape a r c -> has_shape b r' c' ->
  has_shape (np_kron a b) (r * r') (c * c').
Proof.
  intros [Hr Hc] [Hr' Hc']. rewrite Forall_forall in Hc, Hc'. split.
  - now rewrite length_np_kron, Hr, Hr'.
  - apply Forall_forall. intros row Hin. unfold np_kron in Hin.
    apply in_flat_map in Hin as (ra & Hra & Hin).
    apply in_map_iff in Hin as (rb & <- & Hrb).
    now rewrite length_row_kron, (Hc ra Hra), (Hc' rb Hrb).
Qed.

Lemma np_kron_entry (a b : matrix) (r c r' c' i j k l : nat) :
  has_shape a r c -> has_shape b r' c' ->
  (i < r)%nat -> (j < c)%nat -> (k < r')%nat -> (l < c')%nat ->
  entry (np_kron a b) (i * r' + k) (j * c' + l)
  = Cmul (entry a i j) (entry b k l).
Proof.
  intros [Hr Hc] [Hr' Hc'] Hi Hj Hk Hl.
  rewrite Forall_forall in Hc, Hc'. unfold entry, np_kron.
  assert (Ha : In (nth i a []) a) by (apply nth_In; lia).
  assert (Hb : In (nth k b []) b) by (apply nth_In; lia).
  rewrite (nth_flat_map_uniform _ a r' i k [] []);
    [| intros x _; now rewrite length_map | lia | exact Hk ].
  rewrite (nth_indep _ [] (row_kron (nth i a []) []))
    by (rewrite length_map; lia).
  rewrite (map_nth (row_kron (nth i a []))). unfold row_kron.
  rewrite (nth_flat_map_uniform _ (nth i a []) c' j l C0 C0);
    [| intros x _; rewrite length_map; now apply Hc'
     | rewrite (Hc _ Ha); exact Hj
     | exact Hl ].
  rewrite (nth_indep _ C0 (Cmul (nth j (nth i a []) C0) C0))
    by (rewrite length_map, (Hc' _ Hb); exact Hl).
  apply (map_nth (Cmul (nth j (nth i a []) C0))).
Qed.

(** C8.  [kron] computes the Kronecker product of its arguments, taken
    left to right: [np.kron] of an array of [r] rows and [c] columns and
    one of [r'] rows and [c'] columns has [r * r'] rows and [c * c']
    columns and holds [a[i][j] * b[k][l]] at row [i * r' + k] and column
    [j * c' + l]; [kron] folds it over its arguments from the left and
    returns a single argument unchanged; and the product is associative,
    element by element, on two-dimensional arrays (among them the column
    vectors of the program) and on flat ones. *)
Theorem kron_left_to_right_assoc :
  (forall A : matrix, kron A [] = A)
  /\ (forall A B : matrix, kron A [B] = np_kron A B)
  /\ (forall (A : matrix) (ms : list matrix) (B : matrix),
         kron A (ms ++ [B]) = np_kron (kron A ms) B)
  /\ (forall A B C : matrix, kron A [B; C] = np_kron (np_kron A B) C)
  /\ (forall (a b : matrix) (r c r' c' : nat),
         has_shape a r c ->
         has_shape b r' c' ->
         has_shape (kron a [b]) (r * r') (c * c')
         /\ forall i j k l,
              (i < r)%nat -> (j < c)%nat -> (k < r')%nat -> (l < c')%nat ->
              entry (kron a [b]) (i * r' + k) (j * c' + l)
              = Cmul (entry a i j) (entry b k l))
  /\ (forall A B C : matrix,
         kron (kron A [B]) [C] = kron A [kron B [C]]
         /\ kron A [B; C] = kron A [kron B [C]])
  /\ (forall r s t : vector,
         row_kron (row_kron r s) t = row_kron r (row_kron s t)).
Proof.
  split; [|split; [|split; [|split; [|split; [|split]]]]].
  - intros A. reflexivity.
  - intros A B. reflexivity.
  - intros A ms B. unfold kron. now rewrite fold_left_app.
  - intros A B C. reflexivity.
  - intros a b r c r' c' Ha Hb. change (kron a [b]) with (np_kron a b). split.
    + now apply np_kron_has_shape.
    + intros i j k l. now apply np_kron_entry.
  - intros A B C. unfold kron; simpl. split; apply np_kron_assoc.
  - apply row_kron_assoc.
Qed.

Lemma kron_left_to_right_assoc_witness :
  has_shape H 2 2
  /\ has_shape zero 2 1
  /\ has_shape (kron H [zero]) 4 2
  /\ entry (kron H [zero]) (1 * 2 + 0) (1 * 1 + 0)
     = Cmul (entry H 1 1) (entry zero 0 0).
Proof.
  assert (Ha : has_shape H 2 2).
  { split; [reflexivity|]. repeat constructor. }
  assert (Hb : has_shape zero 2 1).
  { split; [reflexivity|]. repeat constructor. }
  split; [exact Ha|]. split; [exact Hb|].
  destruct kron_left_to_right_assoc as (_ & _ & _ & _ & Hk & _).
  destruct (Hk H zero 2%nat 2%nat 2%nat 1%nat Ha Hb) as [Hs He].
  split; [exact Hs|]. apply He; lia.
Defined.

(** ** States of three qubits

    The composite state holds eight amplitudes, as a column until the
    measurement flattens it. *)

Lemma shape8_inv (st : ndarray) :
  shape8 st = true ->
  exists z0 z1 z2 z3 z4 z5 z6 z7,
    flatten st = vec8 z0 z1 z2 z3 z4 z5 z6 z7
    /\ st = like st (vec8 z0 z1 z2 z3 z4 z5 z6 z7).
Proof.
  destruct st as [v|m]; cbn [shape8]; intros Hs.
  - do 9 (destruct v as [|? v]; try discriminate Hs).
    now do 8 eexists.
  - apply andb_true_iff in Hs as [Hl Hr].
    do 9 (destruct m as [|? m]; try discriminate Hl).
    cbn [forallb] in Hr.
    repeat (apply andb_true_iff in Hr as [? Hr]).
    repeat match goal with
           | Hx : (length ?r =? 1)%nat = true |- _ =>
               destruct r as [|? [|? ?]]; try discriminate Hx; clear Hx
           end.
    now do 8 eexists.
Qed.

Lemma flatten_like (st : ndarray) (v : vector) : flatten (like st v) = v.
Proof.
  destruct st; cbn; [reflexivity|].
  induction v as [|z v IH]; cbn; [reflexivity | now f_equal].
Qed.

Lemma like_like (st : ndarray) (v w : vector) :
  like (like st v) w = like st w.
Proof. now destruct st. Qed.

Lemma shape8_like (st : ndarray) (v : vector) :
  length v = 8%nat -> shape8 (like st v) = true.
Proof.
  intros Hv. do 9 (destruct v as [|? v]; try discriminate Hv).
  now destruct st.
Qed.

(** A gate on three qubits times a state of eight amplitudes. *)
Lemma matmul_like (U : matrix) (st : ndarray) (v : vector) :
  conformable U (length v) = true ->
  v <> [] ->
  matmul U (like st v) = Ok (like st (map (fun r => dot r v) U)).
Proof.
  intros HU Hv. destruct st as [w|m]; cbn [like matmul].
  - unfold mat_vec. rewrite HU. reflexivity.
  - unfold mat_mul, col. rewrite length_map, HU. cbn [bind].
    do 2 f_equal. unfold col. rewrite map_map. apply map_ext. intros r.
    destruct v as [|z v]; [contradiction|].
    cbn [transpose ncols map length seq column nth]. do 2 f_equal.
    rewrite map_map. cbn [nth]. now rewrite map_id.
Qed.

Ltac Csolve :=
  apply C_eq;
  unfold Cminus, Cneg, Cmul, Cadd, Cscale, Cdiv_real, C0, C1, RtoC, Re, Im;
  cbn [fst snd]; try ring.

Ltac vec_eq :=
  unfold vec8;
  repeat (apply (f_equal2 (@cons C))); try reflexivity.

(** The three-qubit operators, by what they do to eight amplitudes. *)

Lemma U_cnot_amps (z0 z1 z2 z3 z4 z5 z6 z7 : C) :
  map (fun r => dot r (vec8 z0 z1 z2 z3 z4 z5 z6 z7)) (kron CNOT [I])
  = vec8 z0 z1 z2 z3 z6 z7 z4 z5.
Proof.
  cbn [kron fold_left np_kron flat_map map row_kron app CNOT I dot combine
       fold_right fst snd vec8].
  vec_eq; Csolve.
Qed.

Lemma U_h_amps (z0 z1 z2 z3 z4 z5 z6 z7 : C) :
  map (fun r => dot r (vec8 z0 z1 z2 z3 z4 z5 z6 z7)) (kron H [I; I])
  = map (Cscale (1 / sqrt 2))
        (vec8 (Cadd z0 z4) (Cadd z1 z5) (Cadd z2 z6) (Cadd z3 z7)
              (Cminus z0 z4) (Cminus z1 z5) (Cminus z2 z6) (Cminus z3 z7)).
Proof.
  cbn [kron fold_left np_kron flat_map map row_kron app H mat_map I dot
       combine fold_right fst snd vec8].
  vec_eq; unfold Cminus; Csolve.
Qed.

Lemma U_corr_amps (g00 g01 g10 g11 z0 z1 z2 z3 z4 z5 z6 z7 : C) :
  let g := [[g00; g01]; [g10; g11]] in
  map (fun r => dot r (vec8 z0 z1 z2 z3 z4 z5 z6 z7)) (kron I [I; g])
  = act g z0 z1 ++ act g z2 z3 ++ act g z4 z5 ++ act g z6 z7.
Proof.
  cbn [kron fold_left np_kron flat_map map row_kron app I dot combine
       fold_right fst snd vec8 act].
  vec_eq; Csolve.
Qed.

(** ** Columns and their norms *)

Lemma flatten_col (v : vector) : flatten (col v) = v.
Proof.
  cbn. induction v as [|z v IH]; cbn; [reflexivity | now f_equal].
Qed.

Lemma amap_col (f : C -> C) (v : vector) : amap f (col v) = col (map f v).
Proof. cbn. unfold mat_map, col. now rewrite !map_map. Qed.

Lemma normalize_col (v : vector) : normalize (col v) = col (normalize v).
Proof.
  unfold normalize, np_linalg_norm. rewrite flatten_col.
  cbn [flatten vector_ArrayLike].
  destruct (Req_dec_T _ 0); [reflexivity | apply amap_col].
Qed.

Lemma np_kron_col (v w : vector) :
  np_kron (col v) (col w) = col (row_kron v w).
Proof.
  unfold np_kron, row_kron, col.
  induction v as [|a v IH]; cbn [flat_map map]; [reflexivity|].
  rewrite IH, map_app. f_equal.
  rewrite !map_map. apply map_ext. intros b. cbn. reflexivity.
Qed.

Lemma Rsum_abs2_scale (a : C) (w : list C) :
  Rsum (abs2 (map (Cmul a) w)) = Cmod a ^ 2 * Rsum (abs2 w).
Proof.
  induction w as [|b w IH].
  - cbn. ring.
  - change (Cmod (Cmul a b) ^ 2 + Rsum (abs2 (map (Cmul a) w))
            = Cmod a ^ 2 * (Cmod b ^ 2 + Rsum (abs2 w))).
    rewrite IH, Cmod_sqr_mul. ring.
Qed.

Lemma Rsum_abs2_row_kron (v w : list C) :
  Rsum (abs2 (row_kron v w)) = Rsum (abs2 v) * Rsum (abs2 w).
Proof.
  unfold row_kron. induction v as [|a v IH]; cbn [flat_map].
  - cbn. ring.
  - rewrite abs2_app, Rsum_app, IH, Rsum_abs2_scale.
    change (Rsum (abs2 (a :: v))) with (Cmod a ^ 2 + Rsum (abs2 v)). ring.
Qed.

Lemma norm2_like (st : ndarray) (v : vector) :
  norm2 (like st v) = Rsum (abs2 v).
Proof. unfold norm2. now rewrite flatten_like. Qed.

(** ** The prepared state *)

Lemma ket_psi (alpha beta : C) :
  mat_add (mat_map (Cmul alpha) zero) (mat_map (Cmul beta) one)
  = col [alpha; beta].
Proof.
  cbn [mat_add mat_map map zero one combine fst snd col].
  repeat (apply (f_equal2 (@cons (list C))); try reflexivity);
    apply (f_equal2 (@cons C)); try reflexivity; Csolve.
Qed.

Lemma ket_bell :
  mat_add (kron zero [zero]) (kron one [one]) = col bell_amps.
Proof.
  cbn [mat_add kron fold_left np_kron flat_map map row_kron app zero one
       combine fst snd col bell_amps].
  repeat (apply (f_equal2 (@cons (list C))); try reflexivity);
    apply (f_equal2 (@cons C)); try reflexivity; Csolve.
Qed.

Lemma norm2_bell : Rsum (abs2 bell_amps) = 2.
Proof.
  cbn [bell_amps abs2 map Rsum fold_right]. rewrite !Cmod_sqr.
  unfold C0, C1, RtoC, Re, Im; cbn [fst snd]. ring.
Qed.

Lemma norm2_ket (alpha beta : C) :
  Rsum (abs2 [alpha; beta]) = Cmod alpha ^ 2 + Cmod beta ^ 2.
Proof. cbn. ring. Qed.

Lemma norm2_ket_zero (alpha beta : C) :
  Cmod alpha ^ 2 + Cmod beta ^ 2 = 0 <-> alpha = C0 /\ beta = C0.
Proof.
  split.
  - intros Hs. pose proof (Cmod_sqr_nonneg alpha).
    pose proof (Cmod_sqr_nonneg beta).
    split; apply Cmod_sqr_zero; lra.
  - intros [-> ->]. rewrite !Cmod_sqr.
    unfold C0, RtoC, Re, Im; cbn [fst snd]. ring.
Qed.

Lemma initialize_parsed (alpha beta : C) (s : session) :
  initialize (Some alpha) (Some beta) s
  = ({| state := Some (Arr2 (col (initial_amps alpha beta)));
        psi := Some (col (psi_amps alpha beta));
        alice_result := alice_result s |}, Done).
Proof.
  unfold initialize. rewrite ket_psi, ket_bell, !normalize_col.
  unfold kron. cbn [fold_left]. now rewrite np_kron_col.
Qed.

Lemma length_normalize (v : vector) : length (normalize v) = length v.
Proof.
  unfold normalize. destruct (Req_dec_T _ 0); [reflexivity|].
  cbn. apply length_map.
Qed.

Lemma length_initial_amps (alpha beta : C) :
  length (initial_amps alpha beta) = 8%nat.
Proof.
  unfold initial_amps, psi_amps.
  now rewrite length_row_kron, !length_normalize.
Qed.

Lemma norm2_normalize_vec (v : vector) :
  Rsum (abs2 v) <> 0 -> Rsum (abs2 (normalize v)) = 1.
Proof. exact (norm2_normalize (A := vector) v). Qed.

Lemma norm2_psi_amps (alpha beta : C) :
  alpha <> C0 \/ beta <> C0 -> Rsum (abs2 (psi_amps alpha beta)) = 1.
Proof.
  intros Hnz. apply norm2_normalize_vec. rewrite norm2_ket.
  intros Hz. apply norm2_ket_zero in Hz as [-> ->]. now destruct Hnz.
Qed.

Lemma norm2_initial_amps (alpha beta : C) :
  alpha <> C0 \/ beta <> C0 -> Rsum (abs2 (initial_amps alpha beta)) = 1.
Proof.
  intros Hnz. unfold initial_amps.
  rewrite Rsum_abs2_row_kron, norm2_psi_amps by assumption.
  rewrite norm2_normalize_vec; [ring|]. rewrite norm2_bell. lra.
Qed.

(** ** Gates on the composite state *)

Lemma length_8_inv (v : vector) :
  length v = 8%nat ->
  exists z0 z1 z2 z3 z4 z5 z6 z7, v = vec8 z0 z1 z2 z3 z4 z5 z6 z7.
Proof.
  intros Hv. do 9 (destruct v as [|? v]; try discriminate Hv).
  now do 8 eexists.
Qed.

Lemma matmul_gate (U : matrix) (st : ndarray) (v : vector) :
  length v = 8%nat ->
  conformable U 8 = true ->
  matmul U (like st v) = Ok (like st (apply_gate U v)).
Proof.
  intros Hv HU. apply matmul_like.
  - now rewrite Hv.
  - intros ->. discriminate Hv.
Qed.

Lemma length_apply_gate (U : matrix) (v : vector) :
  length (apply_gate U v) = length U.
Proof. apply length_map. Qed.

Lemma alice_ops_amps (s : session) (st : ndarray) (v : vector) :
  state s = Some (like st v) ->
  length v = 8%nat ->
  alice_ops s = (set_state s (like st (alice_amps v)), Done).
Proof.
  intros Hst Hv. unfold alice_ops. rewrite Hst.
  rewrite matmul_gate by (assumption || reflexivity).
  rewrite matmul_gate by (rewrite ?length_apply_gate; reflexivity).
  reflexivity.
Qed.

Lemma inv_sqrt2_sqr : (1 / sqrt 2) * (1 / sqrt 2) = 1 / 2.
Proof.
  assert (Hs : sqrt 2 * sqrt 2 = 2) by (apply sqrt_sqrt; lra).
  assert (Hp : sqrt 2 <> 0) by (intros Hz; rewrite Hz in Hs; lra).
  replace (1 / sqrt 2 * (1 / sqrt 2)) with (1 / (sqrt 2 * sqrt 2))
    by (now field).
  now rewrite Hs.
Qed.

Lemma Cmod_sqr_scale (r : R) (z : C) :
  Cmod (Cscale r z) ^ 2 = r * r * Cmod z ^ 2.
Proof. rewrite !Cmod_sqr. unfold Cscale, Re, Im; cbn [fst snd]. ring. Qed.

Lemma Rsum_abs2_Cscale (r : R) (w : list C) :
  Rsum (abs2 (map (Cscale r) w)) = r * r * Rsum (abs2 w).
Proof.
  induction w as [|b w IH].
  - cbn. ring.
  - change (Cmod (Cscale r b) ^ 2 + Rsum (abs2 (map (Cscale r) w))
            = r * r * (Cmod b ^ 2 + Rsum (abs2 w))).
    rewrite IH, Cmod_sqr_scale. ring.
Qed.

Ltac norm_ring :=
  unfold vec8;
  cbn [abs2 map Rsum fold_right app act dot combine fst snd];
  rewrite !Cmod_sqr;
  unfold Cminus, Cneg, Cmul, Cadd, Cscale, C0, C1, RtoC, Re, Im;
  cbn [fst snd]; first [ring | field].

Lemma norm2_U_cnot (v : vector) :
  length v = 8%nat -> Rsum (abs2 (apply_gate U_cnot v)) = Rsum (abs2 v).
Proof.
  intros Hv. apply length_8_inv in Hv as (z0&z1&z2&z3&z4&z5&z6&z7&->).
  unfold apply_gate, U_cnot. rewrite U_cnot_amps. norm_ring.
Qed.

Lemma norm2_U_h (v : vector) :
  length v = 8%nat -> Rsum (abs2 (apply_gate U_h v)) = Rsum (abs2 v).
Proof.
  intros Hv. apply length_8_inv in Hv as (z0&z1&z2&z3&z4&z5&z6&z7&->).
  unfold apply_gate, U_h. rewrite U_h_amps, Rsum_abs2_Cscale, inv_sqrt2_sqr.
  norm_ring.
Qed.

Lemma norm2_alice_amps (v : vector) :
  length v = 8%nat -> Rsum (abs2 (alice_amps v)) = Rsum (abs2 v).
Proof.
  intros Hv. unfold alice_amps.
  rewrite norm2_U_h by (now rewrite length_apply_gate).
  now apply norm2_U_cnot.
Qed.

(** ** Bob's correction *)

Lemma mat_mul_Z_X : mat_mul Z X = Ok ZX.
Proof. reflexivity. Qed.

Lemma ZX_entries : ZX = [[C0; C1]; [RtoC (-1); C0]].
Proof.
  unfold ZX.
  repeat (apply (f_equal2 (@cons (list C))); try reflexivity);
    repeat (apply (f_equal2 (@cons C)); try reflexivity); Csolve.
Qed.

Lemma select_correction_table (a b : nat) :
  (a < 2)%nat -> (b < 2)%nat ->
  select_correction a b = Ok (correction_table a b).
Proof.
  intros Ha Hb.
  destruct a as [|[|a]]; [| |lia]; destruct b as [|[|b]]; try lia;
    reflexivity.
Qed.

(** Whatever the recorded bits, the chain selects one of the four. *)
Lemma select_correction_cases (a b : nat) :
  select_correction a b = Ok I \/ select_correction a b = Ok X
  \/ select_correction a b = Ok Z \/ select_correction a b = Ok ZX.
Proof.
  unfold select_correction.
  destruct ((a =? 0) && (b =? 0))%nat; [now left|].
  destruct ((a =? 0) && (b =? 1))%nat; [now right; left|].
  destruct ((a =? 1) && (b =? 0))%nat; [now right; right; left|].
  now right; right; right.
Qed.

Lemma correction_2x2 (a b : nat) (g : matrix) :
  select_correction a b = Ok g -> is_2x2 g.
Proof.
  intros Hg.
  destruct (select_correction_cases a b) as [Hc|[Hc|[Hc|Hc]]];
    rewrite Hc in Hg; injection Hg as <-; now do 4 eexists.
Qed.

Lemma U_corr_third_qubit (g : matrix) (v : vector) :
  is_2x2 g -> length v = 8%nat ->
  apply_gate (kron I [I; g]) v = third_qubit g v.
Proof.
  intros (g00&g01&g10&g11&->) Hv.
  apply length_8_inv in Hv as (z0&z1&z2&z3&z4&z5&z6&z7&->).
  apply U_corr_amps.
Qed.

Lemma conformable_U_corr (g : matrix) :
  is_2x2 g -> conformable (kron I [I; g]) 8 = true.
Proof. intros (g00&g01&g10&g11&->). reflexivity. Qed.

Lemma norm2_third_qubit (a b : nat) (g : matrix) (v : vector) :
  select_correction a b = Ok g -> length v = 8%nat ->
  Rsum (abs2 (third_qubit g v)) = Rsum (abs2 v).
Proof.
  intros Hg Hv.
  apply length_8_inv in Hv as (z0&z1&z2&z3&z4&z5&z6&z7&->).
  destruct (select_correction_cases a b) as [Hc|[Hc|[Hc|Hc]]];
    rewrite Hc in Hg; injection Hg as <-; unfold I, X, Z, ZX, vec8;
    cbn [third_qubit]; norm_ring.
Qed.

Lemma length_third_qubit (g : matrix) (v : vector) :
  is_2x2 g -> length v = 8%nat -> length (third_qubit g v) = 8%nat.
Proof.
  intros (g00&g01&g10&g11&->) Hv.
  apply length_8_inv in Hv as (z0&z1&z2&z3&z4&z5&z6&z7&->). reflexivity.
Qed.

Lemma last_two_amps (st : ndarray) (w : vector) :
  length w = 8%nat ->
  reshape_2_1 (last_two (like st w)) = Ok (col (skipn 6 w)).
Proof.
  intros Hw. apply length_8_inv in Hw as (z0&z1&z2&z3&z4&z5&z6&z7&->).
  now destruct st.
Qed.

Lemma bob_correction_amps (s : session) (st : ndarray) (v : vector)
      (a b : nat) (g : matrix) :
  state s = Some (like st v) ->
  length v = 8%nat ->
  alice_result s = Some (a, b) ->
  select_correction a b = Ok g ->
  bob_correction s
  = (set_state s (like st (third_qubit g v)),
     BobQubit (normalize (col (skipn 6 (third_qubit g v))))).
Proof.
  intros Hst Hv Hr Hg. pose proof (correction_2x2 a b g Hg) as H2.
  unfold bob_correction. rewrite Hst, Hr, Hg. cbn [bind].
  rewrite matmul_gate by (assumption || now apply conformable_U_corr).
  rewrite U_corr_third_qubit by assumption.
  now rewrite last_two_amps by (now apply length_third_qubit).
Qed.

(** ** Measurement *)

Lemma mask_00 : mask (0, 0)%nat = [0; 1]%nat.
Proof. reflexivity. Qed.
Lemma mask_01 : mask (0, 1)%nat = [2; 3]%nat.
Proof. reflexivity. Qed.
Lemma mask_10 : mask (1, 0)%nat = [4; 5]%nat.
Proof. reflexivity. Qed.
Lemma mask_11 : mask (1, 1)%nat = [6; 7]%nat.
Proof. reflexivity. Qed.

Lemma measure_two_qubits_amps (u : R) (st : ndarray) (v : vector) :
  flatten st = v ->
  length v = 8%nat ->
  measure_two_qubits u st
  = (idx <- sample_outcome u (group_probs8 v) ;;
     match nth_error outcomes idx with
     | None => Raise IndexError
     | Some o => Ok (o, normalize (collapse8 idx v))
     end).
Proof.
  intros Hf Hv. apply length_8_inv in Hv as (z0&z1&z2&z3&z4&z5&z6&z7&->).
  unfold measure_two_qubits. rewrite Hf. unfold vec8.
  cbn [group_probs outcomes]. rewrite mask_00, mask_01, mask_10, mask_11.
  cbn [abs2 map take nth_error bind group_probs8].
  destruct (sample_outcome u _) as [idx|e]; cbn [bind]; [|reflexivity].
  destruct idx as [|[|[|[|idx]]]]; cbn [nth_error outcomes];
    rewrite ?mask_00, ?mask_01, ?mask_10, ?mask_11;
    try reflexivity.
  now destruct idx.
Qed.

Lemma norm2_collapse8 (idx : nat) (v : vector) :
  length v = 8%nat -> (idx < 4)%nat ->
  Rsum (abs2 (collapse8 idx v)) = nth idx (group_probs8 v) 0.
Proof.
  intros Hv Hi. apply length_8_inv in Hv as (z0&z1&z2&z3&z4&z5&z6&z7&->).
  destruct idx as [|[|[|[|idx]]]]; try lia;
    unfold vec8; cbn [collapse8 group_probs8 nth abs2 map Rsum fold_right];
    rewrite !Cmod_sqr; unfold C0, RtoC, Re, Im; cbn [fst snd]; ring.
Qed.

Lemma Rsum_group_probs8 (v : vector) :
  length v = 8%nat -> Rsum (group_probs8 v) = Rsum (abs2 v).
Proof.
  intros Hv. apply length_8_inv in Hv as (z0&z1&z2&z3&z4&z5&z6&z7&->).
  cbn. ring.
Qed.

Lemma length_collapse8 (idx : nat) (v : vector) :
  length v = 8%nat -> length (collapse8 idx v) = 8%nat.
Proof.
  intros Hv. apply length_8_inv in Hv as (z0&z1&z2&z3&z4&z5&z6&z7&->).
  now destruct idx as [|[|[|[|idx]]]].
Qed.

Lemma group_probs8_nonneg (v : vector) :
  length v = 8%nat -> Forall (fun g => 0 <= g) (group_probs8 v).
Proof.
  intros Hv. apply length_8_inv in Hv as (z0&z1&z2&z3&z4&z5&z6&z7&->).
  cbn [group_probs8 vec8].
  repeat (apply Forall_cons; [apply Rsum_abs2_nonneg|]). apply Forall_nil.
Qed.

(** ** Sampling *)

Ltac decide_R :=
  repeat match goal with
         | |- context [Rle_dec ?a ?b] => destruct (Rle_dec a b)
         | |- context [Rlt_dec ?a ?b] => destruct (Rlt_dec a b)
         | |- context [Req_dec_T ?a ?b] => destruct (Req_dec_T a b)
         end.

(** The index that [np.random.choice] returns for the uniform sample [u]
    is the one whose interval of the cumulative distribution holds [u];
    its probability is positive. *)
Lemma np_random_choice_4 (u p0 p1 p2 p3 : R) :
  0 <= p0 -> 0 <= p1 -> 0 <= p2 -> 0 <= p3 ->
  p0 + p1 + p2 + p3 = 1 ->
  0 <= u < 1 ->
  let p := [p0; p1; p2; p3] in
  exists idx,
    np_random_choice u p = Ok idx
    /\ (idx < 4)%nat
    /\ 0 < nth idx p 0
    /\ Rsum (firstn idx p) <= u < Rsum (firstn (S idx) p).
Proof.
  intros H0 H1 H2 H3 Hs Hu p. subst p. unfold np_random_choice.
  cbn [existsb map cumsum cumsum_from last Rsum fold_right].
  replace (0 + p0 + p1 + p2 + p3) with 1 by lra.
  destruct (Rlt_dec p0 0); [lra|]. destruct (Rlt_dec p1 0); [lra|].
  destruct (Rlt_dec p2 0); [lra|]. destruct (Rlt_dec p3 0); [lra|].
  cbn [orb]. destruct (Req_dec_T (p0 + (p1 + (p2 + (p3 + 0)))) 1); [|lra].
  cbn [searchsorted_right].
  destruct (Rle_dec ((0 + p0) / 1) u);
    [|exists 0%nat; cbn [nth firstn Rsum fold_right];
      repeat split; try lia; try reflexivity; lra].
  destruct (Rle_dec ((0 + p0 + p1) / 1) u);
    [|exists 1%nat; cbn [nth firstn Rsum fold_right];
      repeat split; try lia; try reflexivity; lra].
  destruct (Rle_dec ((0 + p0 + p1 + p2) / 1) u);
    [|exists 2%nat; cbn [nth firstn Rsum fold_right];
      repeat split; try lia; try reflexivity; lra].
  destruct (Rle_dec (1 / 1) u); [lra|].
  exists 3%nat; cbn [nth firstn Rsum fold_right];
    repeat split; try lia; try reflexivity; lra.
Qed.

Lemma sample_outcome_4 (u g0 g1 g2 g3 : R) :
  0 <= g0 -> 0 <= g1 -> 0 <= g2 -> 0 <= g3 ->
  Rsum [g0; g1; g2; g3] <> 0 ->
  0 <= u < 1 ->
  let raw := [g0; g1; g2; g3] in
  let p := map (fun x => x / Rsum raw) raw in
  exists idx,
    sample_outcome u raw = Ok idx
    /\ (idx < 4)%nat
    /\ 0 < nth idx raw 0
    /\ Rsum p = 1
    /\ Rsum (firstn idx p) <= u < Rsum (firstn (S idx) p).
Proof.
  intros H0 H1 H2 H3 HT Hu raw p. subst raw p.
  set (T := Rsum [g0; g1; g2; g3]) in *.
  assert (HTpos : 0 < T) by (unfold T in *; cbn in *; lra).
  assert (Hdiv : forall g, 0 <= g -> 0 <= g / T)
    by (intros g Hg; apply Rmult_le_pos;
        [assumption | left; now apply Rinv_0_lt_compat]).
  assert (Hsum : g0 / T + g1 / T + g2 / T + g3 / T = 1)
    by (unfold T; cbn; field; unfold T in HT; cbn in HT; lra).
  destruct (np_random_choice_4 u (g0 / T) (g1 / T) (g2 / T) (g3 / T))
    as (idx & Hidx & Hlt & Hpos & Hint); auto.
  exists idx. unfold sample_outcome. fold T.
  destruct (Req_dec_T T 0) as [Hz|_]; [lra|].
  cbn [map] in *. repeat split; try assumption; try apply Hint.
  - assert (Hinv : forall g, 0 < g / T -> 0 < g).
    { intros g Hg. replace g with (g / T * T) by (field; lra).
      now apply Rmult_lt_0_compat. }
    destruct idx as [|[|[|[|idx]]]]; try lia; cbn [nth] in *;
      now apply Hinv.
  - cbn [Rsum fold_right]. lra.
Qed.


(** The measurement of a state of eight amplitudes that are not all zero:
    it returns, and what it returns. *)
Lemma measure_two_qubits_returns (u : R) (st : ndarray) (v : vector) :
  flatten st = v ->
  length v = 8%nat ->
  Rsum (abs2 v) <> 0 ->
  0 <= u < 1 ->
  let raw := group_probs8 v in
  let p := map (fun x => x / Rsum raw) raw in
  exists idx o,
    measure_two_qubits u st = Ok (o, normalize (collapse8 idx v))
    /\ nth_error outcomes idx = Some o
    /\ 0 < nth idx raw 0
    /\ Rsum p = 1
    /\ Rsum (firstn idx p) <= u < Rsum (firstn (S idx) p).
Proof.
  intros Hf Hv Hnz Hu raw p. subst raw p.
  rewrite (measure_two_qubits_amps u st v Hf Hv).
  pose proof (group_probs8_nonneg v Hv) as Hpos.
  rewrite <- (Rsum_group_probs8 v Hv) in Hnz.
  apply length_8_inv in Hv as (z0&z1&z2&z3&z4&z5&z6&z7&->).
  unfold vec8 in *. cbn [group_probs8] in *.
  set (g0 := Rsum (abs2 [z0; z1])) in *.
  set (g1 := Rsum (abs2 [z2; z3])) in *.
  set (g2 := Rsum (abs2 [z4; z5])) in *.
  set (g3 := Rsum (abs2 [z6; z7])) in *.
  clearbody g0 g1 g2 g3.
  inversion_clear Hpos as [|? ? Hg0 Hpos1].
  inversion_clear Hpos1 as [|? ? Hg1 Hpos2].
  inversion_clear Hpos2 as [|? ? Hg2 Hpos3].
  inversion_clear Hpos3 as [|? ? Hg3 _].
  destruct (sample_outcome_4 u _ _ _ _ Hg0 Hg1 Hg2 Hg3 Hnz Hu)
    as (idx & Hs & Hlt & Hgt & Hone & Hint).
  assert (Ho : exists o, nth_error outcomes idx = Some o).
  { destruct idx as [|[|[|[|idx]]]]; try lia; eexists; reflexivity. }
  destruct Ho as [o Ho].
  exists idx, o. rewrite Hs. cbn [bind]. rewrite Ho.
  repeat split; try assumption; apply Hint.
Qed.

(** ** Runs of the protocol driver *)

Lemma unit_state_like (st : ndarray) (v : vector) :
  length v = 8%nat -> Rsum (abs2 v) = 1 -> unit_state (like st v).
Proof.
  intros Hv Hn. split; [now apply shape8_like | now rewrite norm2_like].
Qed.

Lemma unit_state_inv (st : ndarray) :
  unit_state st ->
  exists v, st = like st v /\ flatten st = v /\ length v = 8%nat
            /\ Rsum (abs2 v) = 1.
Proof.
  intros [Hs Hn].
  destruct (shape8_inv st Hs) as (z0&z1&z2&z3&z4&z5&z6&z7&Hf&Hl).
  exists (vec8 z0 z1 z2 z3 z4 z5 z6 z7). repeat split; try assumption.
  unfold norm2 in Hn. now rewrite Hf in Hn.
Qed.


Lemma session_ok_set_state (s : session) (st : ndarray) :
  session_ok s -> unit_state st -> session_ok (set_state s st).
Proof.
  intros [_ Hp] Hst. split.
  - intros st' Heq. injection Heq as <-. assumption.
  - exact Hp.
Qed.

Lemma initialize_ok (alpha beta : C) (s : session) :
  alpha <> C0 \/ beta <> C0 ->
  session_ok (fst (initialize (Some alpha) (Some beta) s)).
Proof.
  intros Hnz. rewrite initialize_parsed. cbn [fst]. split; cbn [state psi].
  - intros st Heq. injection Heq as <-.
    apply (unit_state_like (Arr2 [])).
    + apply length_initial_amps.
    + now apply norm2_initial_amps.
  - intros p Heq. injection Heq as <-. unfold norm2.
    rewrite flatten_col. now apply norm2_psi_amps.
Qed.

Lemma alice_ops_ok (s : session) : session_ok s -> session_ok (fst (alice_ops s)).
Proof.
  intros Hok. destruct (state s) as [st|] eqn:Hst.
  - destruct (unit_state_inv st (proj1 Hok st Hst)) as (v&Hl&_&Hv&Hn).
    rewrite Hl in Hst. rewrite (alice_ops_amps s st v Hst Hv). cbn [fst].
    apply session_ok_set_state; [assumption|].
    apply unit_state_like.
    + unfold alice_amps. now rewrite length_apply_gate.
    + now rewrite norm2_alice_amps.
  - unfold alice_ops. now rewrite Hst.
Qed.

Lemma bob_correction_ok (s : session) :
  session_ok s -> session_ok (fst (bob_correction s)).
Proof.
  intros Hok.
  destruct (state s) as [st|] eqn:Hst;
    [|unfold bob_correction; now rewrite Hst].
  destruct (alice_result s) as [[a b]|] eqn:Hr;
    [|unfold bob_correction; now rewrite Hst, Hr].
  destruct (unit_state_inv st (proj1 Hok st Hst)) as (v&Hl&_&Hv&Hn).
  rewrite Hl in Hst.
  assert (Hg : exists g, select_correction a b = Ok g).
  { destruct (select_correction_cases a b) as [Hc|[Hc|[Hc|Hc]]];
      eexists; exact Hc. }
  destruct Hg as [g Hg].
  rewrite (bob_correction_amps s st v a b g Hst Hv Hr Hg). cbn [fst].
  apply session_ok_set_state; [assumption|].
  apply unit_state_like.
  - apply length_third_qubit; [now apply (correction_2x2 a b)|assumption].
  - now rewrite (norm2_third_qubit a b).
Qed.

Lemma measure_ok (u : R) (s : session) :
  0 <= u < 1 -> session_ok s ->
  session_ok (fst (measure u s))
  /\ (state s <> None -> snd (measure u s) = Done).
Proof.
  intros Hu Hok. destruct (state s) as [st|] eqn:Hst.
  - destruct (unit_state_inv st (proj1 Hok st Hst)) as (v&_&Hf&Hv&Hn).
    destruct (measure_two_qubits_returns u st v Hf Hv ltac:(lra) Hu)
      as (idx & o & Hm & Ho & Hpos & _).
    assert (Hi : (idx < 4)%nat).
    { change 4%nat with (length outcomes). apply nth_error_Some.
      rewrite Ho. discriminate. }
    unfold measure. rewrite Hst, Hm. cbn [fst snd]. split; [|reflexivity].
    split; cbn [state psi]; [|apply Hok].
    intros st' Heq. injection Heq as <-.
    apply (unit_state_like (Arr1 [])).
    + now rewrite length_normalize, length_collapse8.
    + apply norm2_normalize_vec.
      rewrite norm2_collapse8 by assumption. lra.
  - unfold measure. rewrite Hst. split; [assumption|]. now intros [].
Qed.

Lemma run_step_ok (c : step) (s : session) :
  proper_step c -> session_ok s -> session_ok (fst (run_step c s)).
Proof.
  destruct c as [[alpha|] [beta|]| |u|]; cbn [run_step proper_step];
    intros Hc Hok; try assumption.
  - now apply initialize_ok.
  - now apply alice_ops_ok.
  - now apply measure_ok.
  - now apply bob_correction_ok.
Qed.

Lemma run_ok (cs : list step) (s : session) :
  Forall proper_step cs -> session_ok s -> session_ok (run cs s).
Proof.
  revert s. induction cs as [|c cs IH]; intros s Hcs Hok; cbn [run].
  - assumption.
  - inversion_clear Hcs as [|? ? Hc Hcs']. apply IH; [assumption|].
    now apply run_step_ok.
Qed.

(** ** The teleportation run, amplitude by amplitude *)

Lemma sqrt2_sqr : sqrt 2 * sqrt 2 = 2.
Proof. apply sqrt_sqrt. lra. Qed.

Lemma sqrt2_neq_0 : sqrt 2 <> 0.
Proof. intros Hz. pose proof sqrt2_sqr as Hs. rewrite Hz in Hs. lra. Qed.

Lemma sqrt_quarter : sqrt (1 / 4) = 1 / 2.
Proof.
  replace (1 / 4) with ((1 / 2) * (1 / 2)) by lra. apply sqrt_square. lra.
Qed.

(** Closes an equation of reals in which [sqrt 2] occurs. *)
Ltac sqrt2_field :=
  let r := fresh "r" in
  let Hr := fresh "Hr" in
  let Hn := fresh "Hn" in
  pose proof sqrt2_sqr as Hr; pose proof sqrt2_neq_0 as Hn;
  set (r := sqrt 2) in *; clearbody r;
  first [ now field | rewrite <- Hr; now field ].

Ltac Csolve_sqrt2 :=
  apply C_eq;
  unfold Cminus, Cneg, Cmul, Cadd, Cscale, Cdiv_real, C0, C1, RtoC, Re, Im;
  cbn [fst snd]; first [ring | sqrt2_field].

Lemma normalize_bell :
  normalize bell_amps = map (fun z => Cdiv_real z (sqrt 2)) bell_amps.
Proof.
  rewrite (normalize_nonzero (A := vector)).
  - unfold np_linalg_norm. cbn [flatten vector_ArrayLike amap].
    now rewrite norm2_bell.
  - unfold norm2. cbn [flatten vector_ArrayLike]. rewrite norm2_bell. lra.
Qed.

Lemma alice_amps_initial (a b : C) :
  alice_amps (row_kron [a; b] (normalize bell_amps)) = entangled_amps a b.
Proof.
  rewrite normalize_bell.
  cbn [row_kron flat_map map app bell_amps].
  unfold alice_amps, apply_gate, U_cnot, U_h.
  match goal with
  | |- context [map _ (kron CNOT [I])] =>
      match goal with
      | |- context [dot _ [?z0; ?z1; ?z2; ?z3; ?z4; ?z5; ?z6; ?z7]] =>
          change [z0; z1; z2; z3; z4; z5; z6; z7]
            with (vec8 z0 z1 z2 z3 z4 z5 z6 z7)
      end
  end.
  rewrite U_cnot_amps, U_h_amps.
  unfold entangled_amps, vec8, Cneg. cbn [map].
  repeat (apply (f_equal2 (@cons C))); try reflexivity; Csolve_sqrt2.
Qed.

Lemma length_entangled_amps (a b : C) : length (entangled_amps a b) = 8%nat.
Proof. reflexivity. Qed.

Lemma group_probs_entangled (a b : C) :
  Rsum (abs2 [a; b]) = 1 ->
  group_probs8 (entangled_amps a b) = [1 / 4; 1 / 4; 1 / 4; 1 / 4].
Proof.
  intros Hn. cbn [abs2 map Rsum fold_right] in Hn. rewrite !Cmod_sqr in Hn.
  unfold entangled_amps, vec8, Cneg.
  cbn [map group_probs8 abs2 Rsum fold_right].
  rewrite !Cmod_sqr. unfold Cscale, Re, Im in *. cbn [fst snd].
  repeat (apply (f_equal2 (@cons R))); try reflexivity; lra.
Qed.

(** With four equal probabilities the uniform sample [u] selects the
    outcome of index [idx] when it lies in the quarter [idx]. *)
Lemma quarter_index (u : R) (idx : nat) :
  let raw := [1 / 4; 1 / 4; 1 / 4; 1 / 4] in
  let p := map (fun x => x / Rsum raw) raw in
  (idx < 4)%nat ->
  Rsum (firstn idx p) <= u < Rsum (firstn (S idx) p) ->
  INR idx / 4 <= u < (INR idx + 1) / 4.
Proof.
  intros raw p Hi. subst raw p.
  destruct idx as [|[|[|[|idx]]]]; try lia;
    cbn [map Rsum fold_right firstn INR]; lra.
Qed.

Lemma norm_collapse_entangled (a b : C) (idx : nat) :
  Rsum (abs2 [a; b]) = 1 -> (idx < 4)%nat ->
  np_linalg_norm (collapse8 idx (entangled_amps a b)) = 1 / 2.
Proof.
  intros Hn Hi. unfold np_linalg_norm. cbn [flatten vector_ArrayLike].
  rewrite norm2_collapse8 by (assumption || reflexivity).
  rewrite group_probs_entangled by assumption.
  destruct idx as [|[|[|[|idx]]]]; try lia; cbn [nth]; apply sqrt_quarter.
Qed.

Lemma normalize_collapse_entangled (a b : C) (idx : nat) :
  Rsum (abs2 [a; b]) = 1 -> (idx < 4)%nat ->
  normalize (collapse8 idx (entangled_amps a b))
  = map (fun z => Cdiv_real z (1 / 2)) (collapse8 idx (entangled_amps a b)).
Proof.
  intros Hn Hi. rewrite (normalize_nonzero (A := vector)).
  - now rewrite norm_collapse_entangled.
  - intros Hz. apply (norm_zero_iff (A := vector)) in Hz.
    rewrite norm_collapse_entangled in Hz by assumption. lra.
Qed.

Lemma normalize_zero_col : normalize (col [C0; C0]) = col [C0; C0].
Proof.
  apply (normalize_zero (A := matrix)). unfold norm2. rewrite flatten_col.
  cbn [abs2 map Rsum fold_right]. rewrite !Cmod_sqr.
  unfold C0, RtoC, Re, Im; cbn [fst snd]. ring.
Qed.

Lemma bob_qubit_entangled (a b : C) (idx : nat) (o : nat * nat) (g : matrix) :
  Rsum (abs2 [a; b]) = 1 ->
  nth_error outcomes idx = Some o ->
  select_correction (fst o) (snd o) = Ok g ->
  normalize
    (col (skipn 6 (third_qubit g
                     (normalize (collapse8 idx (entangled_amps a b))))))
  = extracted_qubit idx a b.
Proof.
  intros Hn Ho Hg.
  assert (Hi : (idx < 4)%nat).
  { change 4%nat with (length outcomes). apply nth_error_Some.
    rewrite Ho. discriminate. }
  rewrite normalize_collapse_entangled by assumption.
  destruct idx as [|[|[|[|idx]]]]; try lia;
    cbn [nth_error outcomes] in Ho; injection Ho as <-;
    cbn [fst snd] in Hg; injection Hg as <-;
    unfold entangled_amps, vec8, Cneg, ZX, I, X, Z;
    cbn [map collapse8 third_qubit act dot combine fold_right app skipn
         fst snd extracted_qubit].
  1-3: replace (col _) with (col [C0; C0]);
    [apply normalize_zero_col|];
    unfold col; cbn [map];
    repeat (apply (f_equal2 (@cons (list C))); try reflexivity);
    apply (f_equal2 (@cons C)); try reflexivity; Csolve_sqrt2.
  replace (col _) with (col [a; b]).
  - apply (normalize_unit (A := matrix)). unfold norm2.
    now rewrite flatten_col.
  - unfold col; cbn [map];
    repeat (apply (f_equal2 (@cons (list C))); try reflexivity);
    apply (f_equal2 (@cons C)); try reflexivity; Csolve_sqrt2.
Qed.

Lemma psi_amps_inv (alpha beta : C) :
  exists a b, psi_amps alpha beta = [a; b].
Proof.
  pose proof (length_normalize [alpha; beta]) as Hl.
  change (length (psi_amps alpha beta) = 2%nat) in Hl. revert Hl.
  destruct (psi_amps alpha beta) as [|a [|b [|c l]]]; intros Hl;
    try discriminate Hl.
  now exists a, b.
Qed.

Lemma outcome_correction (idx : nat) (o : nat * nat) :
  nth_error outcomes idx = Some o ->
  select_correction (fst o) (snd o) = Ok (correction_table (fst o) (snd o)).
Proof.
  intros Ho. destruct idx as [|[|[|[|idx]]]]; cbn in Ho;
    try (injection Ho as <-; reflexivity).
  now destruct idx.
Qed.

Lemma teleport_by_outcome (alpha beta : C) (u : R) :
  alpha <> C0 \/ beta <> C0 ->
  0 <= u < 1 ->
  exists idx o a b,
    nth_error outcomes idx = Some o
    /\ INR idx / 4 <= u < (INR idx + 1) / 4
    /\ psi_amps alpha beta = [a; b]
    /\ snd (teleport alpha beta u) = BobQubit (extracted_qubit idx a b)
    /\ alice_result (fst (teleport alpha beta u)) = Some o
    /\ psi (fst (teleport alpha beta u)) = Some (col [a; b]).
Proof.
  intros Hnz Hu.
  destruct (psi_amps_inv alpha beta) as (a & b & Hpsi).
  pose proof (norm2_psi_amps alpha beta Hnz) as Hn. rewrite Hpsi in Hn.
  unfold teleport. cbn [run run_step]. rewrite initialize_parsed. cbn [fst].
  rewrite (alice_ops_amps _ (Arr2 []) (initial_amps alpha beta))
    by (reflexivity || apply length_initial_amps).
  cbn [fst]. unfold initial_amps. rewrite Hpsi, alice_amps_initial.
  set (st := like (Arr2 []) (entangled_amps a b)).
  assert (Hsum : Rsum (abs2 (entangled_amps a b)) <> 0).
  { rewrite <- Rsum_group_probs8 by reflexivity.
    rewrite group_probs_entangled by assumption.
    cbn [Rsum fold_right]. lra. }
  destruct (measure_two_qubits_returns u st (entangled_amps a b))
    as (idx & o & Hm & Ho & _ & _ & Hint);
    try assumption; try reflexivity.
  rewrite group_probs_entangled in Hint by assumption.
  assert (Hi : (idx < 4)%nat).
  { change 4%nat with (length outcomes). apply nth_error_Some.
    rewrite Ho. discriminate. }
  apply quarter_index in Hint; [|assumption].
  unfold measure. cbn [state set_state]. rewrite Hm. cbn [fst].
  pose proof (outcome_correction idx o Ho) as Hg.
  erewrite (bob_correction_amps _ (Arr1 []) _ (fst o) (snd o));
    [| reflexivity
     | now rewrite length_normalize, length_collapse8
     | now destruct o
     | exact Hg ].
  exists idx, o, a, b. cbn [fst snd set_state psi alice_result].
  repeat split; try assumption; try apply Hint.
  now rewrite (bob_qubit_entangled a b idx o).
Qed.

(* ------------------------------------------------------------------ *)
(** * Main results *)

(** ** End-to-end fidelity *)

Lemma psi_amps_unit (alpha beta : C) :
  Rsum (abs2 [alpha; beta]) = 1 -> psi_amps alpha beta = [alpha; beta].
Proof. intros Hn. now apply (normalize_unit (A := vector)). Qed.

Lemma unit_nonzero (alpha beta : C) :
  Rsum (abs2 [alpha; beta]) = 1 -> alpha <> C0 \/ beta <> C0.
Proof.
  intros Hn. destruct (Req_dec_T (Cmod alpha ^ 2) 0) as [Ha|Ha].
  - right. intros ->. rewrite norm2_ket, Ha in Hn.
    rewrite Cmod_sqr in Hn. unfold C0, RtoC, Re, Im in Hn.
    cbn [fst snd] in Hn. lra.
  - left. intros ->. apply Ha. rewrite Cmod_sqr.
    unfold C0, RtoC, Re, Im. cbn [fst snd]. ring.
Qed.

(** The run for a qubit that is already normalised, when the uniform
    sample lies in the quarter [k]. *)
Lemma teleport_quarter (alpha beta : C) (u : R) (k : nat) :
  Rsum (abs2 [alpha; beta]) = 1 ->
  (k < 4)%nat ->
  INR k / 4 <= u < (INR k + 1) / 4 ->
  psi (fst (teleport alpha beta u)) = Some (col [alpha; beta])
  /\ alice_result (fst (teleport alpha beta u)) = nth_error outcomes k
  /\ snd (teleport alpha beta u) = BobQubit (extracted_qubit k alpha beta).
Proof.
  intros Hn Hk Hu.
  assert (Hu01 : 0 <= u < 1).
  { destruct k as [|[|[|[|k]]]]; try lia; cbn [INR] in Hu; lra. }
  destruct (teleport_by_outcome alpha beta u (unit_nonzero _ _ Hn) Hu01)
    as (idx & o & a & b & Ho & Hq & Hpsi & Hbob & Hres & Hp).
  rewrite psi_amps_unit in Hpsi by assumption. injection Hpsi as <- <-.
  assert (Hi : (idx < 4)%nat).
  { change 4%nat with (length outcomes). apply nth_error_Some.
    rewrite Ho. discriminate. }
  assert (idx = k) as ->.
  { destruct idx as [|[|[|[|idx]]]]; try lia;
      destruct k as [|[|[|[|k]]]]; try lia;
      try reflexivity; cbn [INR] in Hq, Hu; lra. }
  rewrite Ho. now repeat split.
Qed.

Lemma unit_06_08 : Rsum (abs2 [RtoC 0.6; RtoC 0.8]) = 1.
Proof.
  rewrite norm2_ket, !Cmod_sqr. unfold RtoC, Re, Im. cbn [fst snd]. lra.
Qed.

Lemma zero_not_phase_of_unit (alpha beta : C) :
  Rsum (abs2 [alpha; beta]) = 1 ->
  ~ same_up_to_phase (col [C0; C0]) (col [alpha; beta]).
Proof.
  intros Hn (c & Hc & Heq).
  assert (Ha : C0 = Cmul c alpha)
    by exact (f_equal (fun m => nth 0 (nth 0 m []) C0) Heq).
  assert (Hb : C0 = Cmul c beta)
    by exact (f_equal (fun m => nth 0 (nth 1 m []) C0) Heq).
  assert (Hc2 : Cmod c ^ 2 = 1) by (rewrite Hc; ring).
  assert (Ha2 : Cmod (Cmul c alpha) ^ 2 = 0).
  { rewrite <- Ha, Cmod_sqr. unfold C0, RtoC, Re, Im. cbn [fst snd]. ring. }
  assert (Hb2 : Cmod (Cmul c beta) ^ 2 = 0).
  { rewrite <- Hb, Cmod_sqr. unfold C0, RtoC, Re, Im. cbn [fst snd]. ring. }
  rewrite Cmod_sqr_mul, Hc2 in Ha2, Hb2. rewrite norm2_ket in Hn. lra.
Qed.

Lemma same_up_to_phase_refl (p : matrix) : same_up_to_phase p p.
Proof.
  exists C1. split.
  - unfold Cmod, C1, RtoC, Re, Im. cbn [fst snd].
    replace (1 * 1 + 0 * 0) with 1 by ring. apply sqrt_1.
  - symmetry. apply mat_map_fix. intros z _. Csolve.
Qed.

(** C1.  The run [initialize(0.6, 0.8)], [alice_ops], [measure],
    [bob_correction] with the random source forcing each of the four
    outcomes in turn: the qubit that [bob_correction] extracts from the last
    two amplitudes equals the normalised psi for the outcome (1, 1) only;
    for (0, 0), (0, 1) and (1, 0) it is the zero column, which is not psi
    up to a global phase. *)
Theorem teleport_fidelity_by_outcome :
  let alpha := RtoC 0.6 in
  let beta := RtoC 0.8 in
  let psi0 := col [alpha; beta] in
  let zeros := col [C0; C0] in
  (psi (fst (teleport alpha beta 0)) = Some psi0
   /\ alice_result (fst (teleport alpha beta 0)) = Some (0, 0)%nat
   /\ snd (teleport alpha beta 0) = BobQubit zeros)
  /\ (psi (fst (teleport alpha beta 0.3)) = Some psi0
      /\ alice_result (fst (teleport alpha beta 0.3)) = Some (0, 1)%nat
      /\ snd (teleport alpha beta 0.3) = BobQubit zeros)
  /\ (psi (fst (teleport alpha beta 0.6)) = Some psi0
      /\ alice_result (fst (teleport alpha beta 0.6)) = Some (1, 0)%nat
      /\ snd (teleport alpha beta 0.6) = BobQubit zeros)
  /\ (psi (fst (teleport alpha beta 0.9)) = Some psi0
      /\ alice_result (fst (teleport alpha beta 0.9)) = Some (1, 1)%nat
      /\ snd (teleport alpha beta 0.9) = BobQubit psi0)
  /\ ~ same_up_to_phase zeros psi0
  /\ same_up_to_phase psi0 psi0.
Proof.
  intros alpha beta psi0 zeros.
  split; [|split; [|split; [|split; [|split]]]].
  - apply (teleport_quarter alpha beta 0 0 unit_06_08); [lia|cbn [INR]; lra].
  - apply (teleport_quarter alpha beta 0.3 1 unit_06_08);
      [lia|cbn [INR]; lra].
  - apply (teleport_quarter alpha beta 0.6 2 unit_06_08);
      [lia|cbn [INR]; lra].
  - apply (teleport_quarter alpha beta 0.9 3 unit_06_08);
      [lia|cbn [INR]; lra].
  - apply zero_not_phase_of_unit, unit_06_08.
  - apply same_up_to_phase_refl.
Qed.

(** ** Re-initialization *)

Lemma initialize_keeps_alice_result (alpha_entry beta_entry : option C)
      (s : session) :
  alice_result (fst (initialize alpha_entry beta_entry s)) = alice_result s.
Proof. now destruct alpha_entry, beta_entry. Qed.

(** C2.  A complete run that measured (1, 1), then a second
    [initialize]: the recorded measurement result is still (1, 1), and
    [bob_correction], called before any new [measure], passes its guard
    and applies the correction [Z @ X] of the earlier run to the fresh
    state; it shows no notice. *)
Theorem reinitialize_keeps_measurement :
  let alpha := RtoC 0.6 in
  let beta := RtoC 0.8 in
  let s := fst (initialize (Some alpha) (Some beta)
                           (fst (teleport alpha beta 0.9))) in
  state s = Some (Arr2 (col (initial_amps alpha beta)))
  /\ alice_result s = Some (1, 1)%nat
  /\ (exists bob_qubit,
         bob_correction s
         = (set_state s
              (Arr2 (col (third_qubit ZX (initial_amps alpha beta)))),
            BobQubit bob_qubit))
  /\ (forall title message,
         snd (bob_correction s) <> Notice title message).
Proof.
  intros alpha beta s.
  assert (Hst : state s = Some (like (Arr2 []) (initial_amps alpha beta))).
  { unfold s. now rewrite initialize_parsed. }
  assert (Hres : alice_result s = Some (1, 1)%nat).
  { unfold s. rewrite initialize_keeps_alice_result.
    apply (teleport_quarter alpha beta 0.9 3 unit_06_08);
      [lia | cbn [INR]; lra]. }
  pose proof (bob_correction_amps s (Arr2 []) (initial_amps alpha beta)
                1 1 ZX Hst (length_initial_amps alpha beta) Hres eq_refl)
    as Hbob.
  split; [exact Hst|]. split; [exact Hres|]. split.
  - eexists. exact Hbob.
  - intros title message. rewrite Hbob. discriminate.
Qed.

(** ** Phases out of order *)

(** C3.  [measure] is invoked out of order and changes the session: its
    guard tests only that a state exists, while the notice it shows when
    the guard fails names Alice's operations as its prerequisite.  Called
    right after [initialize(0.6, 0.8)], before [alice_ops], it runs to its
    end, records a result and replaces the state. *)
Theorem measure_before_alice_ops_changes_session :
  let s := fst (initialize (Some (RtoC 0.6)) (Some (RtoC 0.8)) start) in
  measure 0 start
  = (start, Notice "Info" "Initialize and run Alice's operations first.")
  /\ alice_result s = None
  /\ snd (measure 0 s) = Done
  /\ alice_result (fst (measure 0 s)) <> None
  /\ state (fst (measure 0 s)) <> state s
  /\ fst (measure 0 s) <> s.
Proof.
  intros s. split; [reflexivity|].
  assert (Hok : session_ok s).
  { apply initialize_ok, unit_nonzero, unit_06_08. }
  assert (Hst : state s = Some (Arr2 (col (initial_amps (RtoC 0.6)
                                                        (RtoC 0.8))))).
  { unfold s. now rewrite initialize_parsed. }
  assert (Hdone : snd (measure 0 s) = Done).
  { apply measure_ok; [lra | assumption | now rewrite Hst]. }
  assert (Hnone : alice_result s = None) by reflexivity.
  revert Hdone. unfold measure. rewrite Hst.
  destruct (measure_two_qubits 0 _) as [[o new_state]|e]; cbn [fst snd];
    [intros _ | discriminate].
  split; [exact Hnone|]. split; [reflexivity|].
  split; [discriminate|]. split; [discriminate|].
  intros Heq. apply (f_equal alice_result) in Heq.
  rewrite Hnone in Heq. discriminate Heq.
Qed.

(** ** Unit norm *)

Lemma psi_amps_zero : psi_amps C0 C0 = [C0; C0].
Proof.
  apply (normalize_zero (A := vector)). unfold norm2.
  cbn [flatten vector_ArrayLike]. rewrite norm2_ket.
  now apply norm2_ket_zero.
Qed.

Lemma norm2_initial_amps_zero : Rsum (abs2 (initial_amps C0 C0)) = 0.
Proof.
  unfold initial_amps. rewrite Rsum_abs2_row_kron, psi_amps_zero, norm2_ket.
  replace (Cmod C0 ^ 2 + Cmod C0 ^ 2) with 0; [ring|].
  symmetry. now apply norm2_ket_zero.
Qed.

(** C5, as stated, fails: the amplitudes (0, 0) parse, and [initialize]
    then stores an all-zero psi and an all-zero composite state, of norm 0. *)
Lemma initialize_zero_amplitudes_norm :
  let s := fst (initialize (Some C0) (Some C0) start) in
  exists p st,
    psi s = Some p /\ state s = Some st
    /\ np_linalg_norm p = 0 /\ np_linalg_norm st = 0
    /\ np_linalg_norm p <> 1 /\ np_linalg_norm st <> 1.
Proof.
  intros s. unfold s. rewrite initialize_parsed. cbn [fst psi state].
  do 2 eexists. split; [reflexivity|]. split; [reflexivity|].
  assert (Hp : np_linalg_norm (col (psi_amps C0 C0)) = 0).
  { apply norm_zero_iff. unfold norm2. rewrite flatten_col, psi_amps_zero.
    rewrite norm2_ket. now apply norm2_ket_zero. }
  assert (Hs : np_linalg_norm (Arr2 (col (initial_amps C0 C0))) = 0).
  { apply norm_zero_iff.
    change (norm2 (like (Arr2 []) (initial_amps C0 C0)) = 0).
    rewrite norm2_like. apply norm2_initial_amps_zero. }
  rewrite Hp, Hs. repeat split; lra.
Qed.

Lemma run_step_keeps_state (c : step) (s : session) :
  state s <> None -> state (fst (run_step c s)) <> None.
Proof.
  intros Hs. destruct c as [[alpha|] [beta|]| |u|];
    cbn [run_step initialize fst state]; try assumption.
  - discriminate.
  - unfold alice_ops. destruct (state s) as [st|] eqn:Est; [|now elim Hs].
    destruct (matmul _ st) as [st1|e]; [|cbn [fst]; congruence].
    destruct (matmul _ st1); discriminate.
  - unfold measure. destruct (state s) as [st|] eqn:Est; [|now elim Hs].
    destruct (measure_two_qubits u st) as [[o new_state]|e];
      [discriminate|cbn [fst]; congruence].
  - unfold bob_correction.
    destruct (state s) as [st|] eqn:Est; [|now elim Hs].
    destruct (alice_result s) as [[a b]|]; [|cbn [fst]; congruence].
    destruct (bind _ _) as [st'|e]; [|cbn [fst]; congruence].
    destruct (reshape_2_1 _); discriminate.
Qed.

Lemma run_keeps_state (cs : list step) (s : session) :
  state s <> None -> state (run cs s) <> None.
Proof.
  revert s. induction cs as [|c cs IH]; intros s Hs; cbn [run].
  - assumption.
  - now apply IH, run_step_keeps_state.
Qed.

(** C5, amended.  For amplitudes that are not both zero, [initialize]
    stores a psi and a composite state of Euclidean norm 1, and the
    composite state still has norm 1 after any further steps (whose
    re-initializations, if any, also have amplitudes not both zero, and
    whose uniform samples lie in [[0, 1)]). *)
Theorem initialize_unit_norm (alpha beta : C) (s : session)
        (cs : list step) :
  alpha <> C0 \/ beta <> C0 ->
  Forall proper_step cs ->
  let s1 := fst (initialize (Some alpha) (Some beta) s) in
  (exists p st,
      psi s1 = Some p /\ state s1 = Some st
      /\ np_linalg_norm p = 1 /\ np_linalg_norm st = 1)
  /\ (exists st',
         state (run cs s1) = Some st' /\ np_linalg_norm st' = 1).
Proof.
  intros Hnz Hcs s1.
  assert (Hok : session_ok s1) by now apply initialize_ok.
  assert (Hst : state s1 <> None).
  { unfold s1. rewrite initialize_parsed. discriminate. }
  split.
  - destruct (psi s1) as [p|] eqn:Hp.
    + destruct (state s1) as [st|] eqn:Hs; [|contradiction].
      exists p, st. repeat split.
      * apply norm_one_iff. now apply Hok.
      * apply norm_one_iff. now apply Hok.
    + unfold s1 in Hp. rewrite initialize_parsed in Hp. discriminate Hp.
  - pose proof (run_ok cs s1 Hcs Hok) as Hok'.
    pose proof (run_keeps_state cs s1 Hst) as Hst'.
    destruct (state (run cs s1)) as [st'|] eqn:Hs; [|contradiction].
    exists st'. split; [reflexivity|].
    apply norm_one_iff. now apply Hok'.
Qed.

Lemma RtoC_neq_0 (x : R) : x <> 0 -> RtoC x <> C0.
Proof. intros Hx Heq. apply Hx. exact (f_equal Re Heq). Qed.

Lemma initialize_unit_norm_witness :
  let alpha := RtoC 0.6 in
  let beta := RtoC 0.8 in
  let cs := [AliceOps; Measure 0.3; BobCorrection] in
  let s1 := fst (initialize (Some alpha) (Some beta) start) in
  (alpha <> C0 \/ beta <> C0)
  /\ Forall proper_step cs
  /\ (exists p st,
         psi s1 = Some p /\ state s1 = Some st
         /\ np_linalg_norm p = 1 /\ np_linalg_norm st = 1)
  /\ (exists st',
         state (run cs s1) = Some st' /\ np_linalg_norm st' = 1).
Proof.
  intros alpha beta cs s1.
  assert (Hnz : alpha <> C0 \/ beta <> C0).
  { left. apply RtoC_neq_0. lra. }
  assert (Hcs : Forall proper_step cs).
  { repeat apply Forall_cons; try apply Forall_nil; cbn [proper_step];
      try exact Logic.I. lra. }
  split; [exact Hnz|]. split; [exact Hcs|].
  exact (initialize_unit_norm alpha beta start cs Hnz Hcs).
Defined.

(** ** Failure of the measurement *)



Lemma in_range_nonzero (alpha beta : C) :
  squares_in_range (Rsum (abs2 [alpha; beta])) -> alpha <> C0 \/ beta <> C0.
Proof.
  unfold squares_in_range. rewrite norm2_ket. intros Hr.
  destruct (Req_dec_T (Cmod alpha ^ 2) 0) as [Ha|Ha].
  - right. intros ->. rewrite Ha, Cmod_sqr in Hr.
    unfold C0, RtoC, Re, Im in Hr. cbn [fst snd] in Hr. lra.
  - left. intros ->. apply Ha. rewrite Cmod_sqr.
    unfold C0, RtoC, Re, Im. cbn [fst snd]. ring.
Qed.




Lemma in_range_06_08 :
  squares_in_range (Rsum (abs2 [RtoC 0.6; RtoC 0.8])).
Proof. rewrite unit_06_08. unfold squares_in_range. lra. Qed.


(** ** Bob's correction *)

Lemma ZX_after (x y : C) :
  act ZX x y = act Z (nth 0 (act X x y) C0) (nth 1 (act X x y) C0).
Proof.
  unfold ZX, Z, X. cbn [act map dot combine fold_right fst snd nth].
  repeat (apply (f_equal2 (@cons C)); try reflexivity); Csolve.
Qed.

(** C6.  [bob_correction] selects I, X, Z or [Z @ X] by the measured
    bits, [Z @ X] acting as X followed by Z, and replaces the state by
    [kron(I, I, correction) @ state]: the correction acts on each pair of
    amplitudes that differ in the third qubit only, and psi and the
    measured bits are kept. *)
Theorem bob_correction_third_qubit_only (s : session) (st : ndarray)
        (a b : nat) :
  state s = Some st ->
  shape8 st = true ->
  alice_result s = Some (a, b) ->
  (a < 2)%nat -> (b < 2)%nat ->
  let correction := correction_table a b in
  (select_correction 0 0 = Ok I
   /\ select_correction 0 1 = Ok X
   /\ select_correction 1 0 = Ok Z
   /\ select_correction 1 1 = mat_mul Z X
   /\ mat_mul Z X = Ok ZX
   /\ forall x y,
        act ZX x y = act Z (nth 0 (act X x y) C0) (nth 1 (act X x y) C0))
  /\ select_correction a b = Ok correction
  /\ matmul (kron I [I; correction]) st
     = Ok (like st (third_qubit correction (flatten st)))
  /\ fst (bob_correction s)
     = set_state s (like st (third_qubit correction (flatten st))).
Proof.
  intros Hst Hshape Hr Ha Hb correction.
  pose proof (select_correction_table a b Ha Hb) as Hg.
  fold correction in Hg.
  pose proof (correction_2x2 a b correction Hg) as H2.
  destruct (shape8_inv st Hshape) as (z0&z1&z2&z3&z4&z5&z6&z7&Hf&Hl).
  assert (Hv : length (flatten st) = 8%nat) by now rewrite Hf.
  split; [|split; [|split]].
  - repeat split. apply ZX_after.
  - exact Hg.
  - rewrite Hl at 1. rewrite <- Hf.
    rewrite matmul_gate by (assumption || now apply conformable_U_corr).
    now rewrite U_corr_third_qubit.
  - rewrite Hl, <- Hf in Hst.
    now rewrite (bob_correction_amps s st (flatten st) a b correction).
Qed.

Lemma bob_correction_third_qubit_only_witness :
  let st := Arr1 (vec8 C0 C0 C0 C0 C0 C0 C1 C0) in
  let s := {| state := Some st; psi := None;
              alice_result := Some (1, 1)%nat |} in
  fst (bob_correction s)
  = set_state s (like st (third_qubit ZX (flatten st))).
Proof.
  intros st s.
  apply (bob_correction_third_qubit_only s st 1 1);
    [reflexivity | reflexivity | reflexivity | lia | lia].
Defined.

(** ** Re-entry of a phase *)

Lemma inv_sqrt2_neq_0 : / sqrt 2 <> 0.
Proof. apply Rinv_neq_0_compat, sqrt2_neq_0. Qed.

Lemma alice_twice_differs :
  alice_amps (entangled_amps C1 C0) <> entangled_amps C1 C0.
Proof.
  intros Heq. unfold alice_amps, apply_gate, U_cnot, U_h in Heq.
  unfold entangled_amps in Heq. cbn [map vec8] in Heq.
  match type of Heq with
  | context [dot _ [?z0; ?z1; ?z2; ?z3; ?z4; ?z5; ?z6; ?z7]] =>
      change [z0; z1; z2; z3; z4; z5; z6; z7]
        with (vec8 z0 z1 z2 z3 z4 z5 z6 z7) in Heq
  end.
  rewrite U_cnot_amps, U_h_amps in Heq.
  apply (f_equal (fun l => Re (nth 1 l C0))) in Heq.
  unfold vec8 in Heq. cbn [map nth] in Heq.
  unfold Cneg, Cminus, Cadd, Cscale, C0, C1, RtoC, Re, Im in Heq.
  cbn [fst snd] in Heq.
  apply inv_sqrt2_neq_0. lra.
Qed.

Lemma bob_twice_differs :
  let v := vec8 C0 C0 C0 C0 C0 C0 C1 C0 in
  third_qubit ZX (third_qubit ZX v) <> third_qubit ZX v.
Proof.
  intros v Heq. apply (f_equal (fun l => Re (nth 6 l C0))) in Heq.
  unfold v, vec8, ZX in Heq.
  cbn [third_qubit act map dot combine fold_right fst snd app nth] in Heq.
  unfold Cmul, Cadd, C0, C1, RtoC, Re, Im in Heq. cbn [fst snd] in Heq.
  lra.
Qed.

(** C9.  A phase that already ran is accepted again: whenever a state of
    eight amplitudes exists, [alice_ops] multiplies it by the CNOT and
    Hadamard operators, and [bob_correction], given any recorded bits,
    multiplies it by a correction operator; run twice on a state they do
    not, in general, give what one run gives. *)
Theorem phase_reentry_reapplies :
  (forall (shape : ndarray) (p : option matrix)
          (r : option (nat * nat)) (z0 z1 z2 z3 z4 z5 z6 z7 : C),
      let v := vec8 z0 z1 z2 z3 z4 z5 z6 z7 in
      let s := {| state := Some (like shape v); psi := p;
                  alice_result := r |} in
      alice_ops s
      = (set_state s (like shape (apply_gate (kron H [I; I])
                                    (apply_gate (kron CNOT [I]) v))),
         Done)
      /\ alice_ops (fst (alice_ops s))
         = (set_state s (like shape (alice_amps (alice_amps v))), Done))
  /\ (forall (shape : ndarray) (p : option matrix) (a b : nat)
             (z0 z1 z2 z3 z4 z5 z6 z7 : C),
         let v := vec8 z0 z1 z2 z3 z4 z5 z6 z7 in
         let s := {| state := Some (like shape v); psi := p;
                     alice_result := Some (a, b) |} in
         exists g,
           select_correction a b = Ok g
           /\ fst (bob_correction s)
              = set_state s (like shape (apply_gate (kron I [I; g]) v))
           /\ fst (bob_correction (fst (bob_correction s)))
              = set_state s (like shape
                               (apply_gate (kron I [I; g])
                                  (apply_gate (kron I [I; g]) v))))
  /\ (let s := fst (alice_ops (fst (initialize (Some C1) (Some C0) start))) in
      state (fst (alice_ops s)) <> state s)
  /\ (let s := {| state := Some (Arr1 (vec8 C0 C0 C0 C0 C0 C0 C1 C0));
                  psi := None; alice_result := Some (1, 1)%nat |} in
      state (fst (bob_correction (fst (bob_correction s))))
      <> state (fst (bob_correction s))).
Proof.
  split; [|split; [|split]].
  - intros shape p r z0 z1 z2 z3 z4 z5 z6 z7 v s.
    assert (H1 : alice_ops s = (set_state s (like shape (alice_amps v)), Done))
      by now apply alice_ops_amps.
    split; [exact H1|]. rewrite H1. cbn [fst].
    rewrite (alice_ops_amps _ shape (alice_amps v)); reflexivity.
  - intros shape p a b z0 z1 z2 z3 z4 z5 z6 z7 v s.
    assert (Hg : exists g, select_correction a b = Ok g).
    { destruct (select_correction_cases a b) as [Hc|[Hc|[Hc|Hc]]];
        eexists; exact Hc. }
    destruct Hg as [g Hg]. pose proof (correction_2x2 a b g Hg) as H2.
    exists g. split; [exact Hg|].
    assert (H1 : bob_correction s
                 = (set_state s (like shape (third_qubit g v)),
                    BobQubit (normalize (col (skipn 6 (third_qubit g v))))))
      by now apply (bob_correction_amps s shape v a b g).
    rewrite H1. cbn [fst].
    rewrite (U_corr_third_qubit g v) by (assumption || reflexivity).
    split; [reflexivity|].
    rewrite (bob_correction_amps _ shape (third_qubit g v) a b g);
      try reflexivity; try assumption.
    + cbn [fst]. rewrite U_corr_third_qubit; [reflexivity|assumption|].
      now apply length_third_qubit.
    + now apply length_third_qubit.
  - intros s.
    assert (Hs : s = fst (alice_ops
                            (fst (initialize (Some C1) (Some C0) start))))
      by reflexivity.
    rewrite initialize_parsed in Hs. cbn [fst] in Hs.
    rewrite (alice_ops_amps _ (Arr2 []) (initial_amps C1 C0)) in Hs
      by (reflexivity || apply length_initial_amps).
    unfold initial_amps in Hs. rewrite psi_amps_unit in Hs.
    2:{ rewrite norm2_ket, !Cmod_sqr. unfold C0, C1, RtoC, Re, Im.
        cbn [fst snd]. ring. }
    rewrite alice_amps_initial in Hs. cbn [fst] in Hs.
    rewrite Hs.
    rewrite (alice_ops_amps _ (Arr2 []) (entangled_amps C1 C0))
      by reflexivity.
    cbn [fst state set_state]. intros Heq.
    apply alice_twice_differs.
    apply (f_equal option_amps) in Heq. unfold option_amps in Heq.
    now rewrite !flatten_like in Heq.
  - intros s.
    rewrite (bob_correction_amps s (Arr1 []) (vec8 C0 C0 C0 C0 C0 C0 C1 C0)
               1 1 ZX) by reflexivity.
    cbn [fst].
    rewrite (bob_correction_amps _ (Arr1 []) _ 1 1 ZX) by reflexivity.
    cbn [fst state set_state]. intros Heq.
    apply bob_twice_differs.
    apply (f_equal option_amps) in Heq. unfold option_amps in Heq.
    now rewrite !flatten_like in Heq.
Qed.

(** ** The measurement algorithm

    [measure_two_qubits] against the algorithm stated on the indices of
    the basis states. *)

Lemma group_probs8_spec (v : vector) :
  length v = 8%nat -> group_probs8 v = map (group_probability v) outcomes.
Proof.
  intros Hv. apply length_8_inv in Hv as (z0&z1&z2&z3&z4&z5&z6&z7&->).
  reflexivity.
Qed.








(* ------------------------------------------------------------------ *)
(** * Further properties *)

(** ** Plotting *)

Lemma digits_value_app (acc : nat) (s1 s2 : string) :
  digits_value acc (s1 ++ s2) = digits_value (digits_value acc s1) s2.
Proof.
  revert acc. induction s1 as [|c s1 IH]; intros acc; cbn [append digits_value].
  - reflexivity.
  - destruct (String.eqb _ "1"); [apply IH|].
    destruct (String.eqb _ "0"); apply IH.
Qed.

Lemma digits_value_zeros (k : nat) : digits_value 0 (zeros k) = 0%nat.
Proof.
  induction k as [|k IH]; [reflexivity|].
  cbn [zeros]. rewrite digits_value_app. exact IH.
Qed.

Lemma digits_value_pos_bin (p : positive) :
  digits_value 0 (pos_bin p) = Pos.to_nat p.
Proof.
  induction p as [q IH|q IH|]; cbn [pos_bin].
  - rewrite digits_value_app, IH, Pos2Nat.inj_xI.
    change (digits_value (Pos.to_nat q) "1")
      with (2 * Pos.to_nat q + 1)%nat. lia.
  - rewrite digits_value_app, IH, Pos2Nat.inj_xO. reflexivity.
  - reflexivity.
Qed.

Lemma digits_value_bin (i : nat) : digits_value 0 (bin i) = i.
Proof.
  destruct i as [|i]; [reflexivity|].
  unfold bin. rewrite digits_value_pos_bin. now apply Nat2Pos.id.
Qed.

Lemma label_index_basis_label (num_qubits i : nat) :
  label_index (basis_label num_qubits i) = i.
Proof.
  unfold label_index, basis_label, format_0b.
  rewrite !digits_value_app. cbn [digits_value String.eqb Ascii.eqb Bool.eqb].
  rewrite digits_value_zeros. apply digits_value_bin.
Qed.

Lemma length_abs2 (l : list C) : length (abs2 l) = length l.
Proof. apply length_map. Qed.

Lemma NoDup_map_section {A B} (f : A -> B) (g : B -> A) (l : list A) :
  (forall x, g (f x) = x) -> NoDup l -> NoDup (map f l).
Proof.
  intros Hgf Hl. induction Hl as [|x l Hx Hl IH]; cbn [map]; constructor.
  - intros Hin. apply in_map_iff in Hin as (y & Hy & Hyl).
    apply (f_equal g) in Hy. rewrite !Hgf in Hy. now subst y.
  - exact IH.
Qed.

(** X1.  [plot_state] raises [OverflowError] exactly on an empty array;
    otherwise it draws one bar per amplitude, of height the squared modulus,
    under labels that are pairwise distinct and write, in binary, the index
    of their bar. *)
Theorem plot_state_labels (st : ndarray) (title : string) :
  (plot_state st title = OverflowError <-> flatten st = [])
  /\ (flatten st <> [] ->
      exists labels,
        plot_state st title = Drawn labels (abs2 (flatten st)) title
        /\ length labels = length (flatten st)
        /\ NoDup labels
        /\ forall i, (i < length (flatten st))%nat ->
                     label_index (nth i labels EmptyString) = i).
Proof.
  unfold plot_state. cbv zeta. rewrite !length_abs2.
  destruct (flatten st) as [|z v] eqn:Hf.
  - split; [now split|]. now intros [].
  - split; [split; discriminate|]. intros _.
    set (n := length (z :: v)).
    eexists. split; [reflexivity|].
    fold (basis_label (Nat.log2 n)).
    split; [|split].
    + now rewrite length_map, length_seq.
    + apply (NoDup_map_section _ label_index).
      * apply label_index_basis_label.
      * apply seq_NoDup.
    + intros i Hi.
      rewrite (nth_indep _ EmptyString (basis_label (Nat.log2 n) 0))
        by now rewrite length_map, length_seq.
      rewrite (map_nth (basis_label (Nat.log2 n))), seq_nth by assumption.
      apply label_index_basis_label.
Qed.

Lemma plot_state_labels_witness :
  let st := Arr1 [C1; C0] in
  flatten st <> []
  /\ exists labels,
       plot_state st "Quantum State" = Drawn labels (abs2 (flatten st)) "Quantum State"
       /\ length labels = 2%nat
       /\ NoDup labels.
Proof.
  intros st.
  assert (Hne : flatten st <> []) by discriminate.
  split; [exact Hne|].
  destruct (proj2 (plot_state_labels st "Quantum State") Hne)
    as (labels & Hp & Hl & Hn & _).
  now exists labels.
Defined.






(** ** More on [normalize] *)

Lemma nd_map_map (f g : C -> C) (x : ndarray) :
  nd_map f (nd_map g x) = nd_map (fun z => f (g z)) x.
Proof.
  destruct x as [v|m]; cbn [nd_map]; f_equal.
  - apply map_map.
  - unfold mat_map. rewrite map_map. apply map_ext. intros r. apply map_map.
Qed.

Lemma nd_map_ext (f g : C -> C) (x : ndarray) :
  (forall z, f z = g z) -> nd_map f x = nd_map g x.
Proof.
  intros Hfg. destruct x as [v|m]; cbn [nd_map]; f_equal.
  - now apply map_ext.
  - unfold mat_map. apply map_ext. intros r. now apply map_ext.
Qed.

Lemma norm2_scale (c : R) (x : ndarray) :
  norm2 (nd_map (Cscale c) x) = c * c * norm2 x.
Proof.
  unfold norm2. cbn [flatten ndarray_ArrayLike].
  rewrite nd_flatten_map. apply Rsum_abs2_Cscale.
Qed.

Lemma Cdiv_real_scale (c N : R) (z : C) :
  0 < c -> 0 <= N -> N <> 0 ->
  Cdiv_real (Cscale c z) (sqrt (c * c * N)) = Cdiv_real z (sqrt N).
Proof.
  intros Hc HN HN0.
  rewrite sqrt_mult by nra. rewrite sqrt_square by lra.
  assert (Hs : sqrt N <> 0).
  { intros H0. apply HN0. now apply sqrt_eq_0 in H0. }
  apply C_eq; unfold Cdiv_real, Cscale, Re, Im; cbn [fst snd];
    field; (split; [assumption|lra]).
Qed.

Lemma Cscale_C0 (c : R) : Cscale c C0 = C0.
Proof. Csolve. Qed.

(** X3.  [normalize] does not see a positive real factor: an array and
    the same array multiplied by [c > 0] normalise to the same array, when
    the squared moduli of both have sums in range. *)
Theorem normalize_scale_invariant (c : R) (x : ndarray) :
  0 < c ->
  squares_in_range (norm2 x) ->
  squares_in_range (norm2 (nd_map (Cscale c) x)) ->
  normalize (nd_map (Cscale c) x) = normalize x.
Proof.
  intros Hc Hx Hcx.
  assert (Hnz : norm2 x <> 0) by (unfold squares_in_range in Hx; lra).
  assert (Hnz' : norm2 (nd_map (Cscale c) x) <> 0)
    by (unfold squares_in_range in Hcx; lra).
  rewrite !normalize_nonzero by assumption.
  cbn [amap ndarray_ArrayLike]. rewrite nd_map_map.
  apply nd_map_ext. intros z.
  rewrite !norm_sqrt, norm2_scale.
  apply Cdiv_real_scale; [assumption | apply Rsum_abs2_nonneg | assumption].
Qed.

Lemma norm2_col_06_08 : norm2 (Arr2 (col [RtoC 0.6; RtoC 0.8])) = 1.
Proof.
  change (norm2 (like (Arr2 []) [RtoC 0.6; RtoC 0.8]) = 1).
  rewrite norm2_like. apply unit_06_08.
Qed.

Lemma normalize_scale_invariant_witness :
  0 < 5
  /\ squares_in_range (norm2 (Arr2 (col [RtoC 0.6; RtoC 0.8])))
  /\ normalize (nd_map (Cscale 5) (Arr2 (col [RtoC 0.6; RtoC 0.8])))
     = normalize (Arr2 (col [RtoC 0.6; RtoC 0.8])).
Proof.
  assert (Hc : 0 < 5) by lra.
  assert (Hx : squares_in_range (norm2 (Arr2 (col [RtoC 0.6; RtoC 0.8]))))
    by (rewrite norm2_col_06_08; unfold squares_in_range; lra).
  assert (Hcx : squares_in_range
                  (norm2 (nd_map (Cscale 5)
                                 (Arr2 (col [RtoC 0.6; RtoC 0.8])))))
    by (rewrite norm2_scale, norm2_col_06_08; unfold squares_in_range; lra).
  split; [exact Hc|]. split; [exact Hx|].
  exact (normalize_scale_invariant 5 _ Hc Hx Hcx).
Defined.

(** ** More on [kron] *)

Lemma norm2_kron_row (ra : list C) (b : matrix) :
  Rsum (abs2 (concat (map (row_kron ra) b)))
  = Rsum (abs2 ra) * Rsum (abs2 (concat b)).
Proof.
  induction b as [|rb b IH]; cbn [map concat].
  - cbn. ring.
  - rewrite !abs2_app, !Rsum_app, IH, Rsum_abs2_row_kron. ring.
Qed.

Lemma norm2_np_kron (a b : matrix) :
  norm2 (np_kron a b) = norm2 a * norm2 b.
Proof.
  unfold norm2, np_kron. cbn [flatten matrix_ArrayLike].
  induction a as [|ra a IH]; cbn [flat_map concat].
  - cbn. ring.
  - rewrite concat_app, !abs2_app, !Rsum_app, IH, norm2_kron_row. ring.
Qed.

Lemma norm_np_kron (a b : matrix) :
  np_linalg_norm (np_kron a b) = np_linalg_norm a * np_linalg_norm b.
Proof.
  rewrite !norm_sqrt, norm2_np_kron.
  apply sqrt_mult; apply Rsum_abs2_nonneg.
Qed.

(** X4.  The norm of a Kronecker product is the product of the norms, for
    [np.kron] and for [kron] of any number of arrays; so the product of
    arrays of norm 1 has norm 1. *)
Theorem kron_norm_multiplicative (m0 : matrix) (ms : list matrix) :
  np_linalg_norm (kron m0 ms)
  = fold_left Rmult (map np_linalg_norm ms) (np_linalg_norm m0).
Proof.
  unfold kron. revert m0.
  induction ms as [|m ms IH]; intros m0; cbn [fold_left map].
  - reflexivity.
  - now rewrite IH, norm_np_kron.
Qed.

(** X5.  [np.kron] of an array of [r] rows and [c] columns and one of
    [r'] rows and [c'] columns has [r * r'] rows and [c * c'] columns, and
    its element at row [i * r' + k] and column [j * c' + l] is
    [a[i][j] * b[k][l]]. *)
Theorem np_kron_shape_entries (a b : matrix) (r c r' c' : nat) :
  has_shape a r c ->
  has_shape b r' c' ->
  has_shape (np_kron a b) (r * r') (c * c')
  /\ forall i j k l,
       (i < r)%nat -> (j < c)%nat -> (k < r')%nat -> (l < c')%nat ->
       entry (np_kron a b) (i * r' + k) (j * c' + l)
       = Cmul (entry a i j) (entry b k l).
Proof.
  intros [Hr Hc] [Hr' Hc']. rewrite Forall_forall in Hc, Hc'. split.
  - split.
    + now rewrite length_np_kron, Hr, Hr'.
    + apply Forall_forall. intros row Hin. unfold np_kron in Hin.
      apply in_flat_map in Hin as (ra & Hra & Hin).
      apply in_map_iff in Hin as (rb & <- & Hrb).
      now rewrite length_row_kron, (Hc ra Hra), (Hc' rb Hrb).
  - intros i j k l Hi Hj Hk Hl. unfold entry, np_kron.
    rewrite (nth_flat_map_uniform _ a r' i k [] [])
      by (try (intros x _; rewrite length_map); lia).
    rewrite (nth_indep _ [] (row_kron (nth i a []) []))
      by (rewrite length_map; lia).
    rewrite (map_nth (row_kron (nth i a []))).
    assert (Hb : In (nth k b []) b) by (apply nth_In; lia).
    assert (Ha : In (nth i a []) a) by (apply nth_In; lia).
    unfold row_kron.
    rewrite (nth_flat_map_uniform _ (nth i a []) c' j l C0 C0);
      [| intros x _; rewrite length_map; now apply Hc'
       | rewrite (Hc _ Ha); exact Hj
       | exact Hl ].
    rewrite (nth_indep _ C0 (Cmul (nth j (nth i a []) C0) C0))
      by (rewrite length_map, (Hc' _ Hb); exact Hl).
    apply (map_nth (Cmul (nth j (nth i a []) C0))).
Qed.

Lemma np_kron_shape_entries_witness :
  has_shape CNOT 4 4
  /\ has_shape I 2 2
  /\ has_shape (np_kron CNOT I) 8 8
  /\ entry (np_kron CNOT I) (2 * 2 + 1) (3 * 2 + 1)
     = Cmul (entry CNOT 2 3) (entry I 1 1).
Proof.
  assert (Ha : has_shape CNOT 4 4).
  { split; [reflexivity|]. repeat constructor. }
  assert (Hb : has_shape I 2 2).
  { split; [reflexivity|]. repeat constructor. }
  split; [exact Ha|]. split; [exact Hb|].
  destruct (np_kron_shape_entries CNOT I 4 4 2 2 Ha Hb) as [Hs He].
  split; [exact Hs|]. apply He; lia.
Defined.

(** ** The gates keep the norm *)

Lemma norm_like (st : ndarray) (v : vector) :
  np_linalg_norm (like st v) = sqrt (Rsum (abs2 v)).
Proof. now rewrite norm_sqrt, norm2_like. Qed.

Lemma shape8_amps (st : ndarray) :
  shape8 st = true ->
  exists v, st = like st v /\ flatten st = v /\ length v = 8%nat.
Proof.
  intros Hs. destruct (shape8_inv st Hs) as (z0&z1&z2&z3&z4&z5&z6&z7&Hf&Hl).
  now exists (vec8 z0 z1 z2 z3 z4 z5 z6 z7).
Qed.

(** X6.  On every state of eight amplitudes, normalised or not,
    [alice_ops] runs to its end, keeps psi and the recorded result, and
    leaves a state of eight amplitudes of the same norm. *)
Theorem alice_ops_preserves_norm (s : session) (st : ndarray) :
  state s = Some st ->
  shape8 st = true ->
  exists st',
    alice_ops s = (set_state s st', Done)
    /\ shape8 st' = true
    /\ np_linalg_norm st' = np_linalg_norm st.
Proof.
  intros Hst Hshape.
  destruct (shape8_amps st Hshape) as (v & Hl & Hf & Hv).
  rewrite Hl in Hst. exists (like st (alice_amps v)).
  split; [now apply alice_ops_amps|]. split.
  - apply shape8_like. unfold alice_amps. now rewrite length_apply_gate.
  - rewrite Hl at 2. now rewrite !norm_like, norm2_alice_amps.
Qed.

Lemma alice_ops_preserves_norm_witness :
  let st := Arr1 (vec8 (RtoC 3) C0 C0 C0 C0 C0 (RtoC 4) C0) in
  let s := {| state := Some st; psi := None; alice_result := None |} in
  state s = Some st
  /\ shape8 st = true
  /\ exists st',
       alice_ops s = (set_state s st', Done)
       /\ shape8 st' = true
       /\ np_linalg_norm st' = np_linalg_norm st.
Proof.
  intros st s. split; [reflexivity|]. split; [reflexivity|].
  exact (alice_ops_preserves_norm s st eq_refl eq_refl).
Defined.

(** X7.  On every state of eight amplitudes and whatever bits are
    recorded, [bob_correction] runs to its end, keeps psi and the recorded
    bits, and leaves a state of eight amplitudes of the same norm. *)
Theorem bob_correction_preserves_norm (s : session) (st : ndarray)
        (a b : nat) :
  state s = Some st ->
  shape8 st = true ->
  alice_result s = Some (a, b) ->
  exists st' bob_qubit,
    bob_correction s = (set_state s st', BobQubit bob_qubit)
    /\ shape8 st' = true
    /\ np_linalg_norm st' = np_linalg_norm st.
Proof.
  intros Hst Hshape Hr.
  destruct (shape8_amps st Hshape) as (v & Hl & Hf & Hv).
  rewrite Hl in Hst.
  assert (Hg : exists g, select_correction a b = Ok g).
  { destruct (select_correction_cases a b) as [Hc|[Hc|[Hc|Hc]]];
      eexists; exact Hc. }
  destruct Hg as [g Hg]. pose proof (correction_2x2 a b g Hg) as H2.
  exists (like st (third_qubit g v)). eexists.
  split; [now apply (bob_correction_amps s st v a b g)|]. split.
  - apply shape8_like. now apply length_third_qubit.
  - rewrite Hl at 2. now rewrite !norm_like, (norm2_third_qubit a b).
Qed.

Lemma bob_correction_preserves_norm_witness :
  let st := Arr1 (vec8 (RtoC 3) C0 C0 C0 C0 C0 (RtoC 4) C0) in
  let s := {| state := Some st; psi := None;
              alice_result := Some (0, 1)%nat |} in
  state s = Some st
  /\ shape8 st = true
  /\ alice_result s = Some (0, 1)%nat
  /\ exists st' bob_qubit,
       bob_correction s = (set_state s st', BobQubit bob_qubit)
       /\ shape8 st' = true
       /\ np_linalg_norm st' = np_linalg_norm st.
Proof.
  intros st s. split; [reflexivity|]. split; [reflexivity|].
  split; [reflexivity|].
  exact (bob_correction_preserves_norm s st 0 1 eq_refl eq_refl eq_refl).
Defined.

Lemma third_qubit_twice (a b : nat) (g : matrix) (v : vector) :
  (a < 2)%nat -> (b < 2)%nat ->
  select_correction a b = Ok g ->
  length v = 8%nat ->
  third_qubit g (third_qubit g v)
  = if ((a =? 1) && (b =? 1))%nat then map Cneg v else v.
Proof.
  intros Ha Hb Hg Hv.
  apply length_8_inv in Hv as (z0&z1&z2&z3&z4&z5&z6&z7&->).
  rewrite (select_correction_table a b Ha Hb) in Hg. injection Hg as <-.
  destruct a as [|[|a]]; [| |lia]; destruct b as [|[|b]]; try lia;
    cbn [correction_table Nat.eqb andb];
    unfold I, X, Z, ZX, vec8;
    cbn [third_qubit act map dot combine fold_right fst snd app];
    repeat (apply (f_equal2 (@cons C)); try reflexivity); Csolve.
Qed.

(** X8.  [bob_correction] run twice on a state of eight amplitudes, with
    measured bits (a, b): the second run undoes the first when the bits
    are (0, 0), (0, 1) or (1, 0), and for (1, 1) the two runs change the
    sign of every amplitude. *)
Theorem bob_correction_twice (s : session) (st : ndarray) (a b : nat) :
  state s = Some st ->
  shape8 st = true ->
  alice_result s = Some (a, b) ->
  (a < 2)%nat -> (b < 2)%nat ->
  fst (bob_correction (fst (bob_correction s)))
  = set_state s (if ((a =? 1) && (b =? 1))%nat
                 then like st (map Cneg (flatten st))
                 else st).
Proof.
  intros Hst Hshape Hr Ha Hb.
  destruct (shape8_amps st Hshape) as (v & Hl & Hf & Hv).
  rewrite Hf. rewrite Hl in Hst.
  pose proof (select_correction_table a b Ha Hb) as Hg.
  pose proof (correction_2x2 a b _ Hg) as H2.
  rewrite (bob_correction_amps s st v a b _ Hst Hv Hr Hg). cbn [fst].
  rewrite (bob_correction_amps _ st (third_qubit (correction_table a b) v)
             a b (correction_table a b));
    [| reflexivity | now apply length_third_qubit | exact Hr | exact Hg].
  cbn [fst]. rewrite (third_qubit_twice a b) by assumption.
  unfold set_state. cbn [psi alice_result]. do 2 f_equal.
  destruct ((a =? 1) && (b =? 1))%nat; [reflexivity | now symmetry].
Qed.

Lemma bob_correction_twice_witness :
  let st := Arr1 (vec8 (RtoC 3) C0 C0 C0 C0 C0 (RtoC 4) C0) in
  let s := {| state := Some st; psi := None;
              alice_result := Some (0, 1)%nat |} in
  fst (bob_correction (fst (bob_correction s))) = s.
Proof.
  intros st s.
  exact (bob_correction_twice s st 0 1 eq_refl eq_refl eq_refl
           (Nat.lt_0_succ 1) (Nat.lt_succ_diag_r 1)).
Defined.

(** ** More on the measurement *)



Lemma nth_error_outcomes_lt (idx : nat) (o : nat * nat) :
  nth_error outcomes idx = Some o -> (idx < 4)%nat.
Proof.
  intros Ho. change 4%nat with (length outcomes). apply nth_error_Some.
  rewrite Ho. discriminate.
Qed.





(** X11.  On an array of fewer than eight amplitudes
    [measure_two_qubits] raises [IndexError], whatever the amplitudes and
    the uniform sample. *)
Theorem measure_two_qubits_short_array (u : R) (st : ndarray) :
  (length (flatten st) < 8)%nat ->
  measure_two_qubits u st = Raise IndexError.
Proof.
  intros Hlen. unfold measure_two_qubits.
  destruct (flatten st) as [|z0 [|z1 [|z2 [|z3 [|z4 [|z5 [|z6 [|z7 v]]]]]]]];
    cbn [length] in Hlen; try lia;
    cbn [group_probs outcomes];
    rewrite mask_00, ?mask_01, ?mask_10, ?mask_11; reflexivity.
Qed.

Lemma measure_two_qubits_short_array_witness :
  (length (flatten (Arr2 [[C1]; [C0]; [C0]; [C1]])) < 8)%nat
  /\ measure_two_qubits 0.5 (Arr2 [[C1]; [C0]; [C0]; [C1]])
     = Raise IndexError.
Proof.
  assert (Hlen : (length (flatten (Arr2 [[C1]; [C0]; [C0]; [C1]])) < 8)%nat)
    by (cbn; lia).
  split; [exact Hlen|].
  exact (measure_two_qubits_short_array 0.5 _ Hlen).
Defined.

(** ** More on [initialize] *)

Lemma normalize_zero_vec (v : vector) :
  Rsum (abs2 v) = 0 -> normalize v = v.
Proof. exact (normalize_zero (A := vector) v). Qed.

Lemma normalize_nonzero_vec (v : vector) :
  Rsum (abs2 v) <> 0 ->
  normalize v = map (fun z => Cdiv_real z (sqrt (Rsum (abs2 v)))) v.
Proof. exact (normalize_nonzero (A := vector) v). Qed.

Lemma normalize_scale_vec (c : R) (v : vector) :
  0 < c -> normalize (map (Cscale c) v) = normalize v.
Proof.
  intros Hc.
  assert (Hsc : Rsum (abs2 (map (Cscale c) v)) = c * c * Rsum (abs2 v))
    by apply Rsum_abs2_Cscale.
  destruct (Req_dec_T (Rsum (abs2 v)) 0) as [Hz|Hnz].
  - rewrite (normalize_zero_vec v Hz).
    rewrite normalize_zero_vec by (rewrite Hsc, Hz; ring).
    apply map_fix. intros z Hin.
    apply Rsum_abs2_zero in Hz.
    rewrite Forall_forall in Hz. rewrite (Hz z Hin). apply Cscale_C0.
  - assert (Hnz' : Rsum (abs2 (map (Cscale c) v)) <> 0).
    { rewrite Hsc. intros H0.
      apply Rmult_integral in H0 as [H0|H0]; [nra|contradiction]. }
    rewrite !normalize_nonzero_vec by assumption.
    rewrite map_map. apply map_ext. intros z. rewrite Hsc.
    apply Cdiv_real_scale; [assumption | apply Rsum_abs2_nonneg | assumption].
Qed.

(** X12.  [initialize] depends on the direction of the entries only:
    the entries (alpha, beta) and (c alpha, c beta), for a real c > 0, give
    the same psi and the same composite state, when the squared moduli of
    both pairs have sums in range. *)
Theorem initialize_scale_invariant (c : R) (alpha beta : C) (s : session) :
  0 < c ->
  squares_in_range (Rsum (abs2 [alpha; beta])) ->
  squares_in_range (Rsum (abs2 [Cscale c alpha; Cscale c beta])) ->
  initialize (Some (Cscale c alpha)) (Some (Cscale c beta)) s
  = initialize (Some alpha) (Some beta) s.
Proof.
  intros Hc _ _. rewrite !initialize_parsed. unfold initial_amps, psi_amps.
  change [Cscale c alpha; Cscale c beta] with (map (Cscale c) [alpha; beta]).
  now rewrite normalize_scale_vec.
Qed.

Lemma initialize_scale_invariant_witness :
  0 < 5
  /\ squares_in_range (Rsum (abs2 [RtoC 0.6; RtoC 0.8]))
  /\ initialize (Some (Cscale 5 (RtoC 0.6))) (Some (Cscale 5 (RtoC 0.8))) start
     = initialize (Some (RtoC 0.6)) (Some (RtoC 0.8)) start.
Proof.
  assert (Hc : 0 < 5) by lra.
  assert (Hcx : squares_in_range
                  (Rsum (abs2 [Cscale 5 (RtoC 0.6); Cscale 5 (RtoC 0.8)]))).
  { change [Cscale 5 (RtoC 0.6); Cscale 5 (RtoC 0.8)]
      with (map (Cscale 5) [RtoC 0.6; RtoC 0.8]).
    rewrite Rsum_abs2_Cscale, unit_06_08. unfold squares_in_range. lra. }
  split; [exact Hc|]. split; [exact in_range_06_08|].
  exact (initialize_scale_invariant 5 _ _ start Hc in_range_06_08 Hcx).
Defined.

(** ** More on the whole run *)

Lemma entangled_session (alpha beta : C) :
  alpha <> C0 \/ beta <> C0 ->
  exists a b,
    psi_amps alpha beta = [a; b]
    /\ Rsum (abs2 [a; b]) = 1
    /\ run [Initialize (Some alpha) (Some beta); AliceOps] start
       = {| state := Some (Arr2 (col (entangled_amps a b)));
            psi := Some (col [a; b]);
            alice_result := None |}.
Proof.
  intros Hnz. destruct (psi_amps_inv alpha beta) as (a & b & Hpsi).
  pose proof (norm2_psi_amps alpha beta Hnz) as Hn. rewrite Hpsi in Hn.
  exists a, b. split; [exact Hpsi|]. split; [exact Hn|].
  cbn [run run_step]. rewrite initialize_parsed. cbn [fst].
  rewrite (alice_ops_amps _ (Arr2 []) (initial_amps alpha beta))
    by (reflexivity || apply length_initial_amps).
  cbn [fst]. unfold initial_amps. rewrite Hpsi, alice_amps_initial.
  reflexivity.
Qed.

Lemma measure_entangled (a b : C) (u : R) (p : option matrix)
      (r : option (nat * nat)) :
  Rsum (abs2 [a; b]) = 1 ->
  0 <= u < 1 ->
  exists idx o,
    nth_error outcomes idx = Some o
    /\ INR idx / 4 <= u < (INR idx + 1) / 4
    /\ measure u {| state := Some (Arr2 (col (entangled_amps a b)));
                    psi := p; alice_result := r |}
       = ({| state := Some (Arr1 (normalize
                                    (collapse8 idx (entangled_amps a b))));
             psi := p; alice_result := Some o |}, Done).
Proof.
  intros Hn Hu.
  assert (Hsum : Rsum (abs2 (entangled_amps a b)) <> 0).
  { rewrite <- Rsum_group_probs8 by reflexivity.
    rewrite group_probs_entangled by assumption.
    cbn [Rsum fold_right]. lra. }
  destruct (measure_two_qubits_returns u
              (like (Arr2 []) (entangled_amps a b)) (entangled_amps a b))
    as (idx & o & Hm & Ho & _ & _ & Hint);
    try assumption; try reflexivity.
  rewrite group_probs_entangled in Hint by assumption.
  pose proof (nth_error_outcomes_lt idx o Ho) as Hi.
  apply quarter_index in Hint; [|assumption].
  exists idx, o. split; [exact Ho|]. split; [exact Hint|].
  unfold measure. cbn [state psi]. cbn [like] in Hm. now rewrite Hm.
Qed.

(** X13.  Whatever the qubit to teleport, given by entries whose squared
    moduli have a sum in range: after [initialize] and [alice_ops] each of
    the four outcomes has probability 1/4, and [measure] records the
    outcome of index [k] when its uniform sample lies in the quarter [k] of
    [[0, 1)]. *)
Theorem outcome_probabilities_uniform (alpha beta : C) (u : R) (k : nat) :
  squares_in_range (Rsum (abs2 [alpha; beta])) ->
  (k < 4)%nat ->
  INR k / 4 <= u < (INR k + 1) / 4 ->
  let s := run [Initialize (Some alpha) (Some beta); AliceOps] start in
  (exists st,
      state s = Some st
      /\ map (group_probability (flatten st)) outcomes
         = [1 / 4; 1 / 4; 1 / 4; 1 / 4])
  /\ snd (measure u s) = Done
  /\ alice_result (fst (measure u s)) = nth_error outcomes k.
Proof.
  intros Hnz Hk Hq s. apply in_range_nonzero in Hnz.
  destruct (entangled_session alpha beta Hnz) as (a & b & _ & Hn & Hs).
  fold s in Hs. rewrite Hs. split.
  - eexists. split; [reflexivity|].
    change (flatten (Arr2 (col (entangled_amps a b))))
      with (flatten (like (Arr2 []) (entangled_amps a b))).
    rewrite flatten_like, <- group_probs8_spec by reflexivity.
    now apply group_probs_entangled.
  - assert (Hu : 0 <= u < 1).
    { destruct k as [|[|[|[|k]]]]; try lia; cbn [INR] in Hq; lra. }
    destruct (measure_entangled a b u (Some (col [a; b])) None Hn Hu)
      as (idx & o & Ho & Hint & Hm).
    rewrite Hm. cbn [fst snd alice_result]. split; [reflexivity|].
    pose proof (nth_error_outcomes_lt idx o Ho) as Hi.
    assert (idx = k) as ->; [|now symmetry].
    destruct idx as [|[|[|[|idx]]]]; try lia;
      destruct k as [|[|[|[|k]]]]; try lia;
      try reflexivity; cbn [INR] in Hint, Hq; lra.
Qed.

Lemma in_range_3_4 : squares_in_range (Rsum (abs2 [RtoC 3; RtoC 4])).
Proof.
  rewrite norm2_ket, !Cmod_sqr. unfold squares_in_range, RtoC, Re, Im.
  cbn [fst snd]. lra.
Qed.

Lemma outcome_probabilities_uniform_witness :
  let s := run [Initialize (Some (RtoC 3)) (Some (RtoC 4)); AliceOps] start in
  squares_in_range (Rsum (abs2 [RtoC 3; RtoC 4]))
  /\ (2 < 4)%nat
  /\ INR 2 / 4 <= 0.7 < (INR 2 + 1) / 4
  /\ alice_result (fst (measure 0.7 s)) = Some (1, 0)%nat.
Proof.
  intros s.
  assert (Hk : (2 < 4)%nat) by lia.
  assert (Hq : INR 2 / 4 <= 0.7 < (INR 2 + 1) / 4) by (cbn [INR]; lra).
  split; [exact in_range_3_4|]. split; [exact Hk|]. split; [exact Hq|].
  exact (proj2 (proj2 (outcome_probabilities_uniform
                         (RtoC 3) (RtoC 4) 0.7 2 in_range_3_4 Hk Hq))).
Defined.

Lemma corrected_entangled (a b : C) (idx : nat) (o : nat * nat) :
  Rsum (abs2 [a; b]) = 1 ->
  nth_error outcomes idx = Some o ->
  third_qubit (correction_table (fst o) (snd o))
              (normalize (collapse8 idx (entangled_amps a b)))
  = bob_holds idx a b.
Proof.
  intros Hn Ho. pose proof (nth_error_outcomes_lt idx o Ho) as Hi.
  rewrite normalize_collapse_entangled by assumption.
  destruct idx as [|[|[|[|idx]]]]; try lia;
    cbn [nth_error outcomes] in Ho; injection Ho as <-;
    cbn [fst snd correction_table];
    unfold bob_holds, entangled_amps, vec8, ZX, I, X, Z;
    cbn [map collapse8 third_qubit act dot combine fold_right app fst snd];
    repeat (apply (f_equal2 (@cons C)); try reflexivity); Csolve_sqrt2.
Qed.

Lemma teleport_run (alpha beta : C) (u : R) :
  alpha <> C0 \/ beta <> C0 ->
  0 <= u < 1 ->
  exists idx o a b,
    nth_error outcomes idx = Some o
    /\ INR idx / 4 <= u < (INR idx + 1) / 4
    /\ psi_amps alpha beta = [a; b]
    /\ teleport alpha beta u
       = ({| state := Some (Arr1 (bob_holds idx a b));
             psi := Some (col [a; b]);
             alice_result := Some o |},
          BobQubit (extracted_qubit idx a b)).
Proof.
  intros Hnz Hu.
  destruct (entangled_session alpha beta Hnz) as (a & b & Hpsi & Hn & Hs).
  destruct (measure_entangled a b u (Some (col [a; b])) None Hn Hu)
    as (idx & o & Ho & Hint & Hm).
  exists idx, o, a, b. split; [exact Ho|]. split; [exact Hint|].
  split; [exact Hpsi|].
  unfold teleport.
  change (run [Initialize (Some alpha) (Some beta); AliceOps; Measure u] start)
    with (fst (measure u (run [Initialize (Some alpha) (Some beta); AliceOps]
                              start))).
  rewrite Hs, Hm. cbn [fst run_step].
  pose proof (outcome_correction idx o Ho) as Hg.
  pose proof (nth_error_outcomes_lt idx o Ho) as Hi.
  erewrite (bob_correction_amps _ (Arr1 []) _ (fst o) (snd o));
    [| reflexivity
     | now rewrite length_normalize, length_collapse8
     | now destruct o
     | exact Hg ].
  rewrite (bob_qubit_entangled a b idx o) by assumption.
  rewrite corrected_entangled by assumption.
  reflexivity.
Qed.

(** X14.  The protocol teleports on the composite state: for every
    qubit to teleport, given by entries whose squared moduli have a sum in
    range, and every outcome, the state after [bob_correction] is the
    measured basis state of Alice's two qubits together with the
    normalised psi on Bob's qubit. *)
Theorem teleport_state_holds_psi (alpha beta : C) (u : R) :
  squares_in_range (Rsum (abs2 [alpha; beta])) ->
  0 <= u < 1 ->
  exists idx o a b,
    nth_error outcomes idx = Some o
    /\ psi (fst (teleport alpha beta u)) = Some (col [a; b])
    /\ alice_result (fst (teleport alpha beta u)) = Some o
    /\ state (fst (teleport alpha beta u)) = Some (Arr1 (bob_holds idx a b))
    /\ (forall i, (i < 8)%nat ->
                  nth i (bob_holds idx a b) C0
                  = if (i =? 2 * idx)%nat then a
                    else if (i =? 2 * idx + 1)%nat then b
                    else C0).
Proof.
  intros Hnz Hu. apply in_range_nonzero in Hnz.
  destruct (teleport_run alpha beta u Hnz Hu)
    as (idx & o & a & b & Ho & _ & _ & Ht).
  exists idx, o, a, b. rewrite Ht. cbn [fst psi alice_result state].
  repeat (split; [reflexivity || exact Ho|]).
  pose proof (nth_error_outcomes_lt idx o Ho) as Hi.
  intros i Hi8.
  destruct idx as [|[|[|[|idx]]]]; try lia;
    do 8 (destruct i as [|i]; [reflexivity|]); lia.
Qed.

Lemma teleport_state_holds_psi_witness :
  squares_in_range (Rsum (abs2 [RtoC 0.6; RtoC 0.8]))
  /\ 0 <= 0.3 < 1
  /\ exists idx a b,
       state (fst (teleport (RtoC 0.6) (RtoC 0.8) 0.3))
       = Some (Arr1 (bob_holds idx a b)).
Proof.
  assert (Hu : 0 <= 0.3 < 1) by lra.
  split; [exact in_range_06_08|]. split; [exact Hu|].
  destruct (teleport_state_holds_psi (RtoC 0.6) (RtoC 0.8) 0.3
              in_range_06_08 Hu)
    as (idx & o & a & b & _ & _ & _ & Hs & _).
  now exists idx, a, b.
Defined.

(** X15.  For every qubit to teleport, given by entries whose squared
    moduli have a sum in range, the qubit that [bob_correction] extracts
    from the last two amplitudes is the stored psi when the recorded
    outcome is (1, 1), and the zero column for the three other outcomes. *)
Theorem extracted_qubit_by_outcome (alpha beta : C) (u : R) :
  squares_in_range (Rsum (abs2 [alpha; beta])) ->
  0 <= u < 1 ->
  exists o p,
    In o outcomes
    /\ alice_result (fst (teleport alpha beta u)) = Some o
    /\ psi (fst (teleport alpha beta u)) = Some p
    /\ (o = (1, 1)%nat -> snd (teleport alpha beta u) = BobQubit p)
    /\ (o <> (1, 1)%nat ->
        snd (teleport alpha beta u) = BobQubit (col [C0; C0])).
Proof.
  intros Hnz Hu. apply in_range_nonzero in Hnz.
  destruct (teleport_run alpha beta u Hnz Hu)
    as (idx & o & a & b & Ho & _ & _ & Ht).
  exists o, (col [a; b]). rewrite Ht. cbn [fst snd psi alice_result].
  split; [now apply (nth_error_In outcomes idx)|].
  split; [reflexivity|]. split; [reflexivity|].
  destruct idx as [|[|[|[|idx]]]]; cbn [nth_error outcomes] in Ho;
    try (injection Ho as <-; split; [intros Heq | intros Hne];
         try discriminate Heq; try reflexivity; now elim Hne).
  now destruct idx.
Qed.

Lemma extracted_qubit_by_outcome_witness :
  squares_in_range (Rsum (abs2 [RtoC 0.6; RtoC 0.8]))
  /\ 0 <= 0.3 < 1
  /\ exists o, alice_result (fst (teleport (RtoC 0.6) (RtoC 0.8) 0.3)) = Some o.
Proof.
  assert (Hu : 0 <= 0.3 < 1) by lra.
  split; [exact in_range_06_08|]. split; [exact Hu|].
  destruct (extracted_qubit_by_outcome (RtoC 0.6) (RtoC 0.8) 0.3
              in_range_06_08 Hu)
    as (o & p & _ & Hr & _).
  now exists o.
Defined.

(** ** What every run keeps *)

Lemma session_shaped_start : session_shaped start.
Proof. split; intros x Hx; discriminate Hx. Qed.

Lemma session_shaped_set_state (s : session) (st : ndarray) :
  session_shaped s -> shape8 st = true -> session_shaped (set_state s st).
Proof.
  intros [_ Hr] Hst. split; [|exact Hr].
  intros st' Heq. injection Heq as <-. exact Hst.
Qed.

Lemma alice_ops_shaped (s : session) :
  session_shaped s ->
  session_shaped (fst (alice_ops s))
  /\ forall e, snd (alice_ops s) <> Uncaught e.
Proof.
  intros Hs. destruct (state s) as [st|] eqn:Hst.
  - destruct (shape8_amps st (proj1 Hs st Hst)) as (v & Hl & _ & Hv).
    rewrite Hl in Hst. rewrite (alice_ops_amps s st v Hst Hv).
    cbn [fst snd]. split; [|discriminate].
    apply session_shaped_set_state; [exact Hs|].
    apply shape8_like. unfold alice_amps. now rewrite length_apply_gate.
  - unfold alice_ops. rewrite Hst. cbn [fst snd]. split; [exact Hs|discriminate].
Qed.

Lemma bob_correction_shaped (s : session) :
  session_shaped s ->
  session_shaped (fst (bob_correction s))
  /\ forall e, snd (bob_correction s) <> Uncaught e.
Proof.
  intros Hs.
  destruct (state s) as [st|] eqn:Hst;
    [|unfold bob_correction; rewrite Hst; cbn [fst snd];
      split; [exact Hs|discriminate]].
  destruct (alice_result s) as [[a b]|] eqn:Hr;
    [|unfold bob_correction; rewrite Hst, Hr; cbn [fst snd];
      split; [exact Hs|discriminate]].
  destruct (shape8_amps st (proj1 Hs st Hst)) as (v & Hl & _ & Hv).
  rewrite Hl in Hst.
  assert (Hg : exists g, select_correction a b = Ok g).
  { destruct (select_correction_cases a b) as [Hc|[Hc|[Hc|Hc]]];
      eexists; exact Hc. }
  destruct Hg as [g Hg].
  rewrite (bob_correction_amps s st v a b g Hst Hv Hr Hg).
  cbn [fst snd]. split; [|discriminate].
  apply session_shaped_set_state; [exact Hs|].
  apply shape8_like, length_third_qubit; [|exact Hv].
  now apply (correction_2x2 a b).
Qed.

Lemma measure_shaped (u : R) (s : session) :
  session_shaped s -> session_shaped (fst (measure u s)).
Proof.
  intros Hs. unfold measure. destruct (state s) as [st|] eqn:Hst; [|exact Hs].
  destruct (shape8_amps st (proj1 Hs st Hst)) as (v & _ & Hf & Hv).
  rewrite (measure_two_qubits_amps u st v Hf Hv).
  destruct (sample_outcome u (group_probs8 v)) as [idx|e]; cbn [bind];
    [|exact Hs].
  destruct (nth_error outcomes idx) as [o|] eqn:Ho; [|exact Hs].
  cbn [fst]. split; cbn [state alice_result].
  - intros st' Heq. injection Heq as <-. cbn [shape8].
    rewrite length_normalize, length_collapse8 by assumption. reflexivity.
  - intros o' Heq. injection Heq as <-. now apply (nth_error_In outcomes idx).
Qed.

Lemma initialize_shaped (alpha_entry beta_entry : option C) (s : session) :
  session_shaped s ->
  session_shaped (fst (initialize alpha_entry beta_entry s)).
Proof.
  intros Hs. destruct alpha_entry as [alpha|], beta_entry as [beta|];
    try exact Hs.
  rewrite initialize_parsed. cbn [fst]. split; cbn [state alice_result].
  - intros st Heq. injection Heq as <-.
    apply (shape8_like (Arr2 [])), length_initial_amps.
  - apply Hs.
Qed.

Lemma run_shaped (cs : list step) (s : session) :
  session_shaped s -> session_shaped (run cs s).
Proof.
  revert s. induction cs as [|c cs IH]; intros s Hs; cbn [run]; [exact Hs|].
  apply IH. destruct c as [alpha_entry beta_entry| |u|]; cbn [run_step].
  - now apply initialize_shaped.
  - now apply alice_ops_shaped.
  - now apply measure_shaped.
  - now apply bob_correction_shaped.
Qed.

(** X16.  After any sequence of steps from the start, whatever the
    entries and the uniform samples: a state, when there is one, holds
    eight amplitudes; a recorded result is one of (0,0), (0,1), (1,0),
    (1,1); and neither [alice_ops] nor [bob_correction] raises. *)
Theorem run_keeps_shapes (cs : list step) :
  let s := run cs start in
  (forall st, state s = Some st -> length (flatten st) = 8%nat)
  /\ (forall o, alice_result s = Some o -> In o outcomes)
  /\ (forall e, snd (alice_ops s) <> Uncaught e)
  /\ (forall e, snd (bob_correction s) <> Uncaught e).
Proof.
  intros s.
  pose proof (run_shaped cs start session_shaped_start) as Hs. fold s in Hs.
  split; [|split; [|split]].
  - intros st Hst.
    destruct (shape8_amps st (proj1 Hs st Hst)) as (v & _ & Hf & Hv).
    now rewrite Hf.
  - apply Hs.
  - now apply alice_ops_shaped.
  - now apply bob_correction_shaped.
Qed.

Lemma run_keeps_shapes_witness :
  let s := run [Initialize (Some (RtoC 0.6)) (Some (RtoC 0.8)); AliceOps]
               start in
  exists st, state s = Some st /\ length (flatten st) = 8%nat.
Proof.
  intros s.
  assert (Hst : exists st, state s = Some st).
  { destruct (entangled_session (RtoC 0.6) (RtoC 0.8)) as (a & b & _ & _ & Hs).
    - left. apply RtoC_neq_0. lra.
    - fold s in Hs. rewrite Hs. now eexists. }
  destruct Hst as [st Hst]. exists st. split; [exact Hst|].
  exact (proj1 (run_keeps_shapes
                  [Initialize (Some (RtoC 0.6)) (Some (RtoC 0.8)); AliceOps])
               st Hst).
Defined.

(** X17.  Whatever the two entries, the composite state that
    [initialize] stores is the product of the stored psi = (a, b) and the
    Bell pair: a / sqrt 2 on |000> and |011>, b / sqrt 2 on |100> and
    |111>, zero on the four other basis states; the recorded result is
    left as it was. *)
Theorem initialize_product_state (alpha beta : C) (s : session) :
  exists a b,
    fst (initialize (Some alpha) (Some beta) s)
    = {| state := Some (Arr2 (col (map (Cscale (1 / sqrt 2))
                                       (vec8 a C0 C0 a b C0 C0 b))));
         psi := Some (col [a; b]);
         alice_result := alice_result s |}
    /\ [a; b] = normalize [alpha; beta].
Proof.
  destruct (psi_amps_inv alpha beta) as (a & b & Hpsi).
  exists a, b. split; [|now symmetry].
  rewrite initialize_parsed. cbn [fst]. unfold initial_amps.
  rewrite Hpsi, normalize_bell.
  cbn [row_kron flat_map map app bell_amps vec8].
  do 3 f_equal. apply (f_equal col).
  repeat (apply (f_equal2 (@cons C)); try reflexivity); Csolve_sqrt2.
Qed.
